(** * Weighted A* and the MDA routing problem

    A shallow embedding of [framework/graph_search/astar.py] and
    [problems/mda_problem.py], followed by the properties of the
    reconciliation policy, the priority function, the extended cost, the
    successor generation and the goal predicate.

    Python values are embedded as follows:
    - [int] is [Z] (unbounded); the counts of the problem input, which are
      not negative, are [N];
    - [float] is an IEEE-754 binary64 number, [spec_float] with precision 53
      and maximal exponent 1024, with the operations of [SpecFloat];
    - [frozenset] and [set] are [gset]; the iteration order of a Python set is
      unspecified, and [elements] stands for it;
    - a tuple or list of the problem input is a [list];
    - a failed [assert] and an arithmetic exception are values of [exn],
      threaded through [result]; a generator is the list of the values it
      yields together with the exception that ended it, if any. *)

From Stdlib Require Import ZArith Floats.SpecFloat.
From stdpp Require Import gmap strings list sorting.

Local Open Scope Z_scope.

(** ** Floats *)

Definition float : Type := spec_float.
Definition prec : Z := 53.
Definition emax : Z := 1024.

Definition fadd : float → float → float := SFadd prec emax.
Definition fsub : float → float → float := SFsub prec emax.
Definition fmul : float → float → float := SFmul prec emax.
Definition flt : float → float → bool := SFltb.
Definition fle : float → float → bool := SFleb.

(** [float('inf')] *)
Definition inf : float := S754_infinity false.

(** The double nearest to an integer (round to nearest, ties to even). *)
Definition float_of_Z (n : Z) : float := binary_normalize prec emax n 0 false.

(** The literals [1] (converted by [1 - w]), [0.0] and [0.5]. *)
Definition f1 : float := float_of_Z 1.
Definition f0 : float := S754_zero false.
Definition f0_5 : float := S754_finite false 4503599627370496 (-53).

(** ** Exceptions *)

Inductive exn : Set := AssertionError | OverflowError | AttributeError.

Inductive result (A : Type) : Type :=
  | Ok (a : A)
  | Raise (e : exn).
Arguments Ok {A} a.
Arguments Raise {A} e.

Definition bind {A B : Type} (r : result A) (k : A → result B) : result B :=
  match r with
  | Ok a => k a
  | Raise e => Raise e
  end.

Notation "x ←ᵣ r ; k" := (bind r (λ x, k))
  (at level 100, r at next level, right associativity).

(** Python converts the [int] operand of [int * float] to a double and
    raises [OverflowError] when the integer is too large for one, which is
    when the rounded value would be infinite. *)
Definition float_of_int (n : Z) : result float :=
  match float_of_Z n with
  | S754_infinity _ => Raise OverflowError
  | f => Ok f
  end.

Definition int_mul_float (n : Z) (d : float) : result float :=
  f ←ᵣ float_of_int n; Ok (fmul f d).

(** ** Generators

    The values yielded so far, and the exception that ended the iteration. *)

Definition gen (A : Type) : Type := (list A * option exn)%type.

Definition yields {A : Type} (g : gen A) : list A := fst g.
Definition raised {A : Type} (g : gen A) : option exn := snd g.

Definition gen_done {A : Type} : gen A := ([], None).
Definition gen_yield {A : Type} (a : A) : gen A := ([a], None).
Definition gen_raise {A : Type} (e : exn) : gen A := ([], Some e).

(** Run [g1], then [g2] unless [g1] raised. *)
Definition gen_seq {A : Type} (g1 g2 : gen A) : gen A :=
  match raised g1 with
  | Some e => g1
  | None => (yields g1 ++ yields g2, raised g2)
  end.

(** [for x in xs: body x] *)
Fixpoint gen_for {A B : Type} (xs : list B) (body : B → gen A) : gen A :=
  match xs with
  | [] => gen_done
  | x :: xs' => gen_seq (body x) (gen_for xs' body)
  end.

(** ** The extended cost of the MDA problem *)

Inductive MDAOptimizationObjective : Set := Distance | TestsTravelDistance.

#[global] Instance MDAOptimizationObjective_eq_dec : EqDecision MDAOptimizationObjective.
Proof. solve_decision. Defined.

(** The interface [ExtendedCost]: a cost that yields the scalar to optimise. *)
Class ExtendedCost (C : Type) : Type := get_g_cost : C → float.

Record MDACost : Type := mkMDACost {
  distance_cost : float;
  tests_travel_distance_cost : float;
  optimization_objective : MDAOptimizationObjective
}.

(** [MDACost.__add__] *)
Definition MDACost_add (self other : MDACost) : result MDACost :=
  if decide (optimization_objective other = optimization_objective self) then
    Ok {| optimization_objective := optimization_objective self;
          distance_cost := fadd (distance_cost self) (distance_cost other);
          tests_travel_distance_cost :=
            fadd (tests_travel_distance_cost self)
                 (tests_travel_distance_cost other) |}
  else Raise AssertionError.

(** [MDACost.get_g_cost] *)
Definition MDACost_get_g_cost (self : MDACost) : float :=
  match optimization_objective self with
  | Distance => distance_cost self
  | TestsTravelDistance => tests_travel_distance_cost self
  end.

#[global] Instance MDACost_ExtendedCost : ExtendedCost MDACost := MDACost_get_g_cost.

(** ** The problem input

    Modelled from the spec: the classes of the problem input are not part of
    the sources at hand.  The descriptor supplies the ambulance's initial
    location, initial resource units and carrying capacity, the pickup sites
    (each with a location, a demand count and a display name) and the
    drop-off sites (each with a location, a supply count and a display name).
    Counts are natural numbers.  A junction is a location of the streets map
    that carries an integer index; it is left abstract. *)

Module ApartmentWithSymptomsReport.
Record t (Junction : Type) : Type := mk {
  report_id : Z;
  reporter_name : string;
  location : Junction;
  nr_roommates : N
}.
Arguments mk {Junction}.
Arguments report_id {Junction}.
Arguments reporter_name {Junction}.
Arguments location {Junction}.
Arguments nr_roommates {Junction}.
End ApartmentWithSymptomsReport.

Module Laboratory.
Record t (Junction : Type) : Type := mk {
  lab_id : Z;
  name : string;
  location : Junction;
  max_nr_matoshim : N
}.
Arguments mk {Junction}.
Arguments lab_id {Junction}.
Arguments name {Junction}.
Arguments location {Junction}.
Arguments max_nr_matoshim {Junction}.
End Laboratory.

Module Ambulance.
Record t (Junction : Type) : Type := mk {
  initial_location : Junction;
  initial_nr_matoshim : N;
  taken_tests_storage_capacity : N
}.
Arguments mk {Junction}.
Arguments initial_location {Junction}.
Arguments initial_nr_matoshim {Junction}.
Arguments taken_tests_storage_capacity {Junction}.
End Ambulance.

#[global] Instance apartment_eq_dec `{EqDecision Junction} :
  EqDecision (ApartmentWithSymptomsReport.t Junction).
Proof. solve_decision. Defined.

#[global] Instance apartment_countable `{Countable Junction} :
  Countable (ApartmentWithSymptomsReport.t Junction).
Proof.
  apply (inj_countable'
    (λ a, (ApartmentWithSymptomsReport.report_id a,
           ApartmentWithSymptomsReport.reporter_name a,
           ApartmentWithSymptomsReport.location a,
           ApartmentWithSymptomsReport.nr_roommates a))
    (λ '(i, n, l, r), ApartmentWithSymptomsReport.mk i n l r)).
  by intros [].
Defined.

#[global] Instance laboratory_eq_dec `{EqDecision Junction} :
  EqDecision (Laboratory.t Junction).
Proof. solve_decision. Defined.

#[global] Instance laboratory_countable `{Countable Junction} :
  Countable (Laboratory.t Junction).
Proof.
  apply (inj_countable'
    (λ l, (Laboratory.lab_id l, Laboratory.name l, Laboratory.location l,
           Laboratory.max_nr_matoshim l))
    (λ '(i, n, l, m), Laboratory.mk i n l m)).
  by intros [].
Defined.

Record MDAProblemInput (Junction : Type) : Type := mkMDAProblemInput {
  input_name : string;
  reported_apartments : list (ApartmentWithSymptomsReport.t Junction);
  ambulance : Ambulance.t Junction;
  laboratories : list (Laboratory.t Junction)
}.
Arguments mkMDAProblemInput {Junction}.
Arguments input_name {Junction}.
Arguments reported_apartments {Junction}.
Arguments ambulance {Junction}.
Arguments laboratories {Junction}.

(** Modelled from the spec: the triple produced by the expansion of a state
    for one transition (successor state, cost of the transition, label). *)
Record OperatorResult (S C : Type) : Type := mkOperatorResult {
  successor_state : S;
  operator_cost : C;
  operator_name : string
}.
Arguments mkOperatorResult {S C}.
Arguments successor_state {S C}.
Arguments operator_cost {S C}.
Arguments operator_name {S C}.

(** ** The MDA problem *)

Section MDA.
Context {Junction : Type} `{Countable Junction}.

(** [Junction.index] *)
Variable index : Junction → Z.

#[local] Abbreviation Apartment := (ApartmentWithSymptomsReport.t Junction).
#[local] Abbreviation Lab := (Laboratory.t Junction).

(** [Union[Junction, Laboratory, ApartmentWithSymptomsReport]] *)
Inductive Site : Type :=
  | AtJunction (j : Junction)
  | AtLaboratory (lab : Lab)
  | AtApartment (apartment : Apartment).

Record MDAState : Type := mkMDAState {
  current_site : Site;
  tests_on_ambulance : gset Apartment;
  tests_transferred_to_lab : gset Apartment;
  nr_matoshim_on_ambulance : Z;
  visited_labs : gset Lab
}.

(** [MDAState.current_location] *)
Definition current_location (self : MDAState) : Junction :=
  match current_site self with
  | AtApartment apartment => ApartmentWithSymptomsReport.location apartment
  | AtLaboratory lab => Laboratory.location lab
  | AtJunction j => j
  end.

(** [sum(...)] over integers, starting from 0. *)
Definition sum (l : list Z) : Z := foldl Z.add 0 l.

(** [MDAState.get_total_nr_tests_taken_and_stored_on_ambulance] *)
Definition get_total_nr_tests_taken_and_stored_on_ambulance
    (self : MDAState) : Z :=
  sum ((λ apartment, Z.of_N (ApartmentWithSymptomsReport.nr_roommates apartment))
         <$> elements (tests_on_ambulance self)).

(** An [MDAProblem].  The distance finder is the collaborator of the
    spec's distance-lookup interface: the distance between two junctions,
    or [None] when there is no route. *)
Record MDAProblem : Type := mkMDAProblem {
  problem_input : MDAProblemInput Junction;
  get_map_cost_between : Junction → Junction → option float;
  problem_objective : MDAOptimizationObjective
}.

(** The initial state built by [MDAProblem.__init__]. *)
Definition initial_state (pi : MDAProblemInput Junction) : MDAState :=
  {| current_site := AtJunction (Ambulance.initial_location (ambulance pi));
     tests_on_ambulance := ∅;
     tests_transferred_to_lab := ∅;
     nr_matoshim_on_ambulance :=
       Z.of_N (Ambulance.initial_nr_matoshim (ambulance pi));
     visited_labs := ∅ |}.

Variable self : MDAProblem.

(** [MDAProblem.get_operator_cost] *)
Definition get_operator_cost (prev_state succ_state : MDAState)
    : result MDACost :=
  match get_map_cost_between self (current_location prev_state)
                                  (current_location succ_state) with
  | None => Ok (mkMDACost inf inf (problem_objective self))
  | Some distance_cost =>
      tests_travel ←ᵣ int_mul_float
        (get_total_nr_tests_taken_and_stored_on_ambulance prev_state)
        distance_cost;
      Ok (mkMDACost distance_cost tests_travel (problem_objective self))
  end.

(** [MDAProblem.get_zero_cost] *)
Definition get_zero_cost : MDACost := mkMDACost f0 f0 (problem_objective self).

(** [MDAProblem.get_reported_apartments_waiting_to_visit] *)
Definition get_reported_apartments_waiting_to_visit (state : MDAState)
    : gset Apartment :=
  let all : gset Apartment :=
    list_to_set (reported_apartments (problem_input self)) in
  let visited := tests_on_ambulance state in
  let transferred := tests_transferred_to_lab state in
  all ∖ (transferred ∪ visited).

(** The body of the first loop of [expand_state_with_costs]. *)
Definition expand_apartment (state_to_expand : MDAState)
    (apartment : Apartment) : gen (OperatorResult MDAState MDACost) :=
  let new_matoshim :=
    nr_matoshim_on_ambulance state_to_expand
    - Z.of_N (ApartmentWithSymptomsReport.nr_roommates apartment) in
  let ambulance_capacity :=
    Z.of_N (Ambulance.taken_tests_storage_capacity
              (ambulance (problem_input self))) in
  let remaining_capacity :=
    ambulance_capacity
    - get_total_nr_tests_taken_and_stored_on_ambulance state_to_expand in
  let new_capacity :=
    remaining_capacity
    - Z.of_N (ApartmentWithSymptomsReport.nr_roommates apartment) in
  if (0 <=? new_matoshim) && (0 <=? new_capacity) then
    let new_tests_on_ambulance :=
      tests_on_ambulance state_to_expand ∪ {[apartment]} in
    let successor_state :=
      mkMDAState (AtApartment apartment)
                 new_tests_on_ambulance
                 (tests_transferred_to_lab state_to_expand)
                 new_matoshim
                 (visited_labs state_to_expand) in
    match get_operator_cost state_to_expand successor_state with
    | Raise e => gen_raise e
    | Ok visit_cost =>
        gen_yield (mkOperatorResult successor_state visit_cost
                     ("visit " +:+ ApartmentWithSymptomsReport.reporter_name apartment))
    end
  else gen_done.

(** The body of the second loop of [expand_state_with_costs]. *)
Definition expand_lab (state_to_expand : MDAState) (lab : Lab)
    : gen (OperatorResult MDAState MDACost) :=
  (* [tests_on_ambulance] in the source: the number of tests, not the set *)
  let nr_tests_on_ambulance :=
    get_total_nr_tests_taken_and_stored_on_ambulance state_to_expand in
  let is_visited_lab := bool_decide (lab ∈ visited_labs state_to_expand) in
  if negb is_visited_lab || (0 <? nr_tests_on_ambulance) then
    let '(new_matoshim, new_visited_labs) :=
      if negb is_visited_lab then
        (nr_matoshim_on_ambulance state_to_expand
           + Z.of_N (Laboratory.max_nr_matoshim lab),
         visited_labs state_to_expand ∪ {[lab]})
      else
        (nr_matoshim_on_ambulance state_to_expand,
         visited_labs state_to_expand) in
    let new_transferred :=
      tests_transferred_to_lab state_to_expand
      ∪ tests_on_ambulance state_to_expand in
    let successor_state :=
      mkMDAState (AtLaboratory lab) ∅ new_transferred new_matoshim
                 new_visited_labs in
    match get_operator_cost state_to_expand successor_state with
    | Raise e => gen_raise e
    | Ok visit_cost =>
        let lab_name := "go to lab " +:+ Laboratory.name lab in
        gen_yield (mkOperatorResult successor_state visit_cost lab_name)
    end
  else gen_done.

(** [MDAProblem.expand_state_with_costs] *)
Definition expand_state_with_costs (state_to_expand : MDAState)
    : gen (OperatorResult MDAState MDACost) :=
  gen_seq
    (gen_for (elements (get_reported_apartments_waiting_to_visit state_to_expand))
             (expand_apartment state_to_expand))
    (gen_for (laboratories (problem_input self))
             (expand_lab state_to_expand)).

(** [MDAProblem.is_goal] *)
Definition is_goal (state : MDAState) : bool :=
  let is_in_lab :=
    match current_site state with AtLaboratory _ => true | _ => false end in
  let all_tests_taken :=
    bool_decide ((list_to_set (reported_apartments (problem_input self))
                    : gset Apartment)
                 = tests_transferred_to_lab state) in
  is_in_lab && all_tests_taken
  && bool_decide ((∅ : gset Apartment) = tests_on_ambulance state)
  && (0 <=? nr_matoshim_on_ambulance state)
  && bool_decide (visited_labs state
                  ⊆ (list_to_set (laboratories (problem_input self)) : gset Lab)).

(** The order of [sorted(..., key=indices)]. *)
Definition index_le (x y : Junction) : Prop := index x ≤ index y.

#[global] Instance index_le_dec : RelDecision index_le.
Proof. intros x y. unfold index_le. apply _. Defined.

(** [sorted(..., key=indices)]: a stable merge sort on the key. *)
Definition sorted_by_index (l : list Junction) : list Junction :=
  merge_sort index_le l.

(** [MDAProblem.get_all_certain_junctions_in_remaining_ambulance_path] *)
Definition get_all_certain_junctions_in_remaining_ambulance_path
    (state : MDAState) : list Junction :=
  let remaining_junks : gset Junction :=
    set_map ApartmentWithSymptomsReport.location
            (get_reported_apartments_waiting_to_visit state)
    ∪ {[current_location state]} in
  sorted_by_index (elements remaining_junks).

(** The state after taking the tests of [apartment], and the state after
    handing the tests over at [lab]: the successor states the two loops of
    [expand_state_with_costs] build. *)
Definition state_after_apartment (s : MDAState) (apartment : Apartment)
    : MDAState :=
  {| current_site := AtApartment apartment;
     tests_on_ambulance := tests_on_ambulance s ∪ {[apartment]};
     tests_transferred_to_lab := tests_transferred_to_lab s;
     nr_matoshim_on_ambulance :=
       nr_matoshim_on_ambulance s
       - Z.of_N (ApartmentWithSymptomsReport.nr_roommates apartment);
     visited_labs := visited_labs s |}.

Definition state_after_lab (s : MDAState) (lab : Lab) : MDAState :=
  {| current_site := AtLaboratory lab;
     tests_on_ambulance := ∅;
     tests_transferred_to_lab :=
       tests_transferred_to_lab s ∪ tests_on_ambulance s;
     nr_matoshim_on_ambulance :=
       if decide (lab ∈ visited_labs s) then nr_matoshim_on_ambulance s
       else nr_matoshim_on_ambulance s + Z.of_N (Laboratory.max_nr_matoshim lab);
     visited_labs :=
       if decide (lab ∈ visited_labs s) then visited_labs s
       else visited_labs s ∪ {[lab]} |}.

(** One step of successor generation, and what is reachable by it. *)
Definition succ_step (s s' : MDAState) : Prop :=
  ∃ r, r ∈ yields (expand_state_with_costs s) ∧ successor_state r = s'.

Definition reachable : MDAState → MDAState → Prop := rtc succ_step.
End MDA.

Arguments Site Junction : clear implicits.
Arguments MDAState Junction {_ _}.
Arguments MDAProblem Junction : clear implicits.

(** ** Weighted A* *)

Section AStar.
Context {State : Type} `{Countable State}.
Context {Cost : Type} `{ExtendedCost Cost}.
Context {Problem : Type}.

(** Modelled from the spec: a search node is an immutable record of a
    state, the accumulated cost, the parent link, the label of the applied
    operator and the expansion priority; its g-cost is the scalar derived
    from the accumulated extended cost. *)
#[warnings="-register-all"] Inductive SearchNode : Type := mkSearchNode {
  state : State;
  parent_search_node : option SearchNode;
  applied_operator : option string;
  cost : Cost;
  expanding_priority : option float
}.

Definition g_cost (node : SearchNode) : float := get_g_cost (cost node).

(** Modelled from the spec: Open and Close are containers of search nodes
    keyed by the state of a node, not by its identity: membership, lookup
    and removal all go by state, and a container holds one node per state.
    Open is ordered by the priority stored in the nodes. *)
Definition SearchNodesPriorityQueue : Type := gmap State SearchNode.
Definition SearchNodesCollection : Type := gmap State SearchNode.

(** Every node is filed under its own state. *)
Definition keyed_by_state (nodes : gmap State SearchNode) : Prop :=
  ∀ s node, nodes !! s = Some node → state node = s.

Definition has_state (nodes : gmap State SearchNode) (s : State) : bool :=
  bool_decide (is_Some (nodes !! s)).
Definition get_node_by_state (nodes : gmap State SearchNode) (s : State)
    : option SearchNode := nodes !! s.
Definition push_node (open : SearchNodesPriorityQueue) (node : SearchNode)
    : SearchNodesPriorityQueue := <[state node := node]> open.
Definition extract_node (open : SearchNodesPriorityQueue) (node : SearchNode)
    : SearchNodesPriorityQueue := delete (state node) open.
Definition add_node (close : SearchNodesCollection) (node : SearchNode)
    : SearchNodesCollection := <[state node := node]> close.
Definition remove_node (close : SearchNodesCollection) (node : SearchNode)
    : SearchNodesCollection := delete (state node) close.

(** Modelled from the spec: a heuristic is built once per problem by a
    factory and estimates the remaining cost from a state. *)
Record HeuristicFunction : Type := mkHeuristicFunction {
  heuristic_name : string;
  estimate : State → float
}.

Record AStar : Type := mkAStar {
  heuristic_function_type : Problem → HeuristicFunction;
  heuristic_function : option HeuristicFunction;
  heuristic_weight : float;
  max_nr_states_to_expand : option Z;
  open_criterion : option (SearchNode → bool);
  use_close : bool;
  open : SearchNodesPriorityQueue;
  close : SearchNodesCollection
}.

(** [AStar.__init__]; an argument left out is [None] here. *)
Definition AStar_init
    (heuristic_function_type : Problem → HeuristicFunction)
    (heuristic_weight : option float)
    (max_nr_states_to_expand : option Z)
    (open_criterion : option (SearchNode → bool)) : AStar :=
  {| heuristic_function_type := heuristic_function_type;
     heuristic_function := None;
     heuristic_weight := default f0_5 heuristic_weight;
     max_nr_states_to_expand := max_nr_states_to_expand;
     open_criterion := open_criterion;
     use_close := true;
     open := ∅;
     close := ∅ |}.

(** [AStar._init_solver]; the part of the base class starts the search
    with empty containers. *)
Definition _init_solver (self : AStar) (problem : Problem) : AStar :=
  {| heuristic_function_type := heuristic_function_type self;
     heuristic_function := Some (heuristic_function_type self problem);
     heuristic_weight := heuristic_weight self;
     max_nr_states_to_expand := max_nr_states_to_expand self;
     open_criterion := open_criterion self;
     use_close := use_close self;
     open := ∅;
     close := ∅ |}.

(** [AStar._calc_node_expanding_priority] *)
Definition _calc_node_expanding_priority (self : AStar)
    (search_node : SearchNode) : result float :=
  match heuristic_function self with
  | None => Raise AttributeError
  | Some heuristic =>
      let h_cost := estimate heuristic (state search_node) in
      Ok (fadd (fmul (fsub f1 (heuristic_weight self)) (g_cost search_node))
               (fmul (heuristic_weight self) h_cost))
  end.

Definition with_open_close (self : AStar)
    (open' : SearchNodesPriorityQueue) (close' : SearchNodesCollection)
    : AStar :=
  {| heuristic_function_type := heuristic_function_type self;
     heuristic_function := heuristic_function self;
     heuristic_weight := heuristic_weight self;
     max_nr_states_to_expand := max_nr_states_to_expand self;
     open_criterion := open_criterion self;
     use_close := use_close self;
     open := open';
     close := close' |}.

(** [AStar._open_successor_node] *)
Definition _open_successor_node (self : AStar) (problem : Problem)
    (successor_node : SearchNode) : AStar :=
  if has_state (open self) (state successor_node) then
    match get_node_by_state (open self) (state successor_node) with
    | Some existing_node =>
        if flt (g_cost successor_node) (g_cost existing_node) then
          with_open_close self
            (push_node (extract_node (open self) existing_node) successor_node)
            (close self)
        else self
    | None => self
    end
  else if has_state (close self) (state successor_node) then
    match get_node_by_state (close self) (state successor_node) with
    | Some existing_node =>
        if flt (g_cost successor_node) (g_cost existing_node) then
          with_open_close self
            (push_node (open self) successor_node)
            (remove_node (close self) successor_node)
        else self
    | None => self
    end
  else
    with_open_close self (push_node (open self) successor_node) (close self).
End AStar.

Arguments SearchNode State Cost : clear implicits.
Arguments SearchNodesPriorityQueue State {_ _} Cost.
Arguments SearchNodesCollection State {_ _} Cost.
Arguments HeuristicFunction State : clear implicits.
Arguments AStar State {_ _} Cost Problem.

(** ** More of the MDA state *)

Section MDA_state.
Context {Junction : Type} `{Countable Junction}.

#[global] Instance Site_eq_dec : EqDecision (Site Junction).
Proof. solve_decision. Defined.

(** [MDAState.get_current_location_short_description] *)
Definition get_current_location_short_description (self : MDAState Junction)
    : string :=
  match current_site self with
  | AtApartment apartment =>
      "test @ " +:+ ApartmentWithSymptomsReport.reporter_name apartment
  | AtLaboratory lab => "lab " +:+ Laboratory.name lab
  | AtJunction _ => "initial-location"
  end.


(** Python's [hash] of a tuple, a function of the values of its members. *)
Variable hash :
  Site Junction * gset (ApartmentWithSymptomsReport.t Junction)
  * gset (ApartmentWithSymptomsReport.t Junction) * Z
  * gset (Laboratory.t Junction) → Z.


(** The sum of an integer quantity over the members of a set. *)
Definition sum_over {A : Type} `{Countable A} (f : A → Z) (X : gset A) : Z :=
  sum (f <$> elements X).

(** The work left in a state: two units for an apartment still to visit (a
    visit and a transfer), one for a laboratory never visited and one for an
    apartment whose tests are on the ambulance. *)
Definition remaining_work (self : MDAProblem Junction) (s : MDAState Junction)
    : nat :=
  2 * size (get_reported_apartments_waiting_to_visit self s)
  + size ((list_to_set (laboratories (problem_input self))
           : gset (Laboratory.t Junction)) ∖ visited_labs s)
  + size (tests_on_ambulance s).

(** What every state reached from the initial state satisfies: the
    apartments on the ambulance and the transferred ones are reported, none
    is both, the visited laboratories are those of the problem input and the
    number of matoshim is not negative. *)
Definition well_formed (self : MDAProblem Junction) (s : MDAState Junction)
    : Prop :=
  (∀ a, a ∈ tests_on_ambulance s ∨ a ∈ tests_transferred_to_lab s →
        a ∈ reported_apartments (problem_input self))
  ∧ tests_on_ambulance s ∩ tests_transferred_to_lab s = ∅
  ∧ (∀ lab, lab ∈ visited_labs s → lab ∈ laboratories (problem_input self))
  ∧ 0 ≤ nr_matoshim_on_ambulance s.
End MDA_state.

(** A float that is neither a NaN nor the negative infinity, and one that is
    not the negative zero. *)
Definition adds_to_inf (x : float) : Prop :=
  match x with
  | S754_nan | S754_infinity true => False
  | _ => True
  end.

Definition not_negative_zero (x : float) : Prop := x ≠ S754_zero true.

(** ** A small problem

    Junctions are numbered; the junction is its own index.  Two reported
    apartments, one of them with no roommate to test, one laboratory, and a
    map on which every two junctions are at distance 1.0 of each other. *)

(** The doubles written [0.1], [0.2] and [0.3] in Python. *)
Definition f0_1 : float := S754_finite false 7205759403792794 (-56).
Definition f0_2 : float := S754_finite false 7205759403792794 (-55).
Definition f0_3 : float := S754_finite false 5404319552844595 (-54).

Definition Dana : ApartmentWithSymptomsReport.t Z :=
  ApartmentWithSymptomsReport.mk 0 "Dana" 11 0.
Definition Noa : ApartmentWithSymptomsReport.t Z :=
  ApartmentWithSymptomsReport.mk 1 "Noa" 12 3.
Definition Haifa : Laboratory.t Z := Laboratory.mk 0 "Haifa" 20 5.

Definition small_input : MDAProblemInput Z :=
  mkMDAProblemInput "small" [Dana; Noa] (Ambulance.mk 1 5 4) [Haifa].

Definition small_problem : MDAProblem Z :=
  mkMDAProblem small_input (λ _ _, Some f1) Distance.

(** The ambulance has visited the laboratory, then Dana's apartment. *)
Definition after_Dana : MDAState Z :=
  mkMDAState (AtApartment Dana) {[Dana]} ∅ 5 {[Haifa]}.

(** An apartment with more roommates than a float can count, and the
    ambulance after a visit there. *)
Definition Goliath : ApartmentWithSymptomsReport.t Z :=
  ApartmentWithSymptomsReport.mk 2 "Goliath" 13 (2 ^ 1024).
Definition after_Goliath : MDAState Z :=
  mkMDAState (AtApartment Goliath) {[Goliath]} ∅ 5 ∅.

(** A search in which the state 7 is in Open with cost 0.3, and a candidate
    node for the same state with cost 0.1. *)
Definition node_in_open : SearchNode Z MDACost :=
  mkSearchNode 7 None None (mkMDACost f0_3 f0 Distance) None.
Definition candidate_node : SearchNode Z MDACost :=
  mkSearchNode 7 None (Some "visit Noa") (mkMDACost f0_1 f0 Distance) None.
Definition small_search : AStar Z MDACost unit :=
  with_open_close
    (AStar_init (λ _, mkHeuristicFunction "zero" (λ _, f0)) None None None)
    ({[7 := node_in_open]} : gmap Z (SearchNode Z MDACost))
    (∅ : gmap Z (SearchNode Z MDACost)).

(** A candidate node for the state 7 reached over a transition without a
    route, and two states at different kinds of site. *)
Definition unreachable_node : SearchNode Z MDACost :=
  mkSearchNode 7 None (Some "visit Noa") (mkMDACost inf inf Distance) None.
Definition at_Haifa : MDAState Z :=
  mkMDAState (AtLaboratory Haifa) ∅ {[Noa]} 7 {[Haifa]}.

(** The small problem without a laboratory, and with an ambulance that stores
    two tests only. *)
Definition input_without_labs : MDAProblemInput Z :=
  mkMDAProblemInput "no labs" [Dana; Noa] (Ambulance.mk 1 5 4) [].
Definition problem_without_labs : MDAProblem Z :=
  mkMDAProblem input_without_labs (λ _ _, Some f1) Distance.
Definition input_small_storage : MDAProblemInput Z :=
  mkMDAProblemInput "small storage" [Dana; Noa] (Ambulance.mk 1 5 2) [Haifa].
Definition problem_small_storage : MDAProblem Z :=
  mkMDAProblem input_small_storage (λ _ _, Some f1) Distance.
Definition input_few_matoshim : MDAProblemInput Z :=
  mkMDAProblemInput "few matoshim" [Dana; Noa] (Ambulance.mk 1 1 4)
    [Laboratory.mk 1 "Afula" 21 1].
Definition problem_few_matoshim : MDAProblem Z :=
  mkMDAProblem input_few_matoshim (λ _ _, Some f1) Distance.

(** The small problem after the visit of Noa's apartment from the initial
    state, and with everything done. *)
Definition after_Noa : MDAState Z :=
  state_after_apartment (initial_state small_input) Noa.
Definition all_done : MDAState Z :=
  mkMDAState (AtLaboratory Haifa) ∅ {[Dana; Noa]} 2 {[Haifa]}.

(** * Properties *)

(** ** Floats *)

Lemma SFcompare_antisym (x y : float) (c : comparison) :
  SFcompare x y = Some c → SFcompare y x = Some (CompOpp c).
Proof.
  destruct x as [[]|[]| |[] mx ex], y as [[]|[]| |[] my ey]; simpl;
    intros Hc; simplify_eq; try done;
    rewrite (Z.compare_antisym ex ey);
    destruct (ex ?= ey); simpl; try done;
    change (PosDef.Pos.compare_cont Eq my mx)
      with (Pos.compare_cont (CompOpp Eq) my mx);
    rewrite <- (Pos.compare_cont_antisym mx my Eq);
    by destruct (Pos.compare_cont Eq mx my).
Qed.

Lemma fle_not_flt (x y : float) : fle x y = true → flt y x = false.
Proof.
  unfold fle, flt, SFleb, SFltb. intros Hle.
  destruct (SFcompare x y) as [c|] eqn:Hc; [|done].
  rewrite (SFcompare_antisym _ _ _ Hc). by destruct c.
Qed.

Lemma fadd_comm (x y : float) : fadd x y = fadd y x.
Proof.
  unfold fadd.
  destruct x as [[]|[]| |sx mx ex], y as [[]|[]| |sy my ey]; simpl; try done.
  by rewrite (Z.min_comm ey ex), Z.add_comm.
Qed.

(** The integers up to 2^1024 - 2^970 - 1 convert to a float, the largest
    to the largest finite double; from 2^1024 - 2^970 on the conversion
    overflows. *)
Lemma float_of_int_range :
  float_of_int 0 = Ok f0
  ∧ float_of_int 3 = Ok (S754_finite false 6755399441055744 (-51))
  ∧ float_of_int (2 ^ 1024 - 2 ^ 970 - 1)
    = Ok (S754_finite false 9007199254740991 971)
  ∧ float_of_int (2 ^ 1024 - 2 ^ 970) = Raise OverflowError.
Proof. by vm_compute. Qed.

(** With the default weight both terms of the priority weigh one half. *)
Lemma default_weight_half : fsub f1 f0_5 = f0_5.
Proof. by vm_compute. Qed.

(** ** The extended cost *)

Lemma MDACost_add_same_objective (a b : MDACost) :
  optimization_objective a = optimization_objective b →
  MDACost_add a b
  = Ok (mkMDACost (fadd (distance_cost a) (distance_cost b))
                  (fadd (tests_travel_distance_cost a)
                        (tests_travel_distance_cost b))
                  (optimization_objective a)).
Proof. intros Hobj. unfold MDACost_add. by rewrite decide_True. Qed.

Lemma MDACost_add_mismatch (a b : MDACost) :
  optimization_objective a ≠ optimization_objective b →
  MDACost_add a b = Raise AssertionError.
Proof. intros Hobj. unfold MDACost_add. by rewrite decide_False. Qed.

Lemma MDACost_add_comm (a b : MDACost) : MDACost_add a b = MDACost_add b a.
Proof.
  destruct (decide (optimization_objective a = optimization_objective b))
    as [Hobj|Hobj].
  - rewrite !MDACost_add_same_objective by done.
    by rewrite Hobj, (fadd_comm (distance_cost a)),
      (fadd_comm (tests_travel_distance_cost a)).
  - by rewrite !MDACost_add_mismatch.
Qed.

(** C7, as stated, fails: the sum of three costs with the same objective
    depends on the grouping, because every component sum is rounded.  With
    distances 0.1, 0.2 and 0.3 the two groupings give 0.6000000000000001 and
    0.6. *)
Lemma MDACost_add_not_associative :
  let a := mkMDACost f0_1 f0_1 Distance in
  let b := mkMDACost f0_2 f0_2 Distance in
  let c := mkMDACost f0_3 f0_3 Distance in
  (ab ←ᵣ MDACost_add a b; MDACost_add ab c)
  = Ok (mkMDACost (S754_finite false 5404319552844596 (-53))
                  (S754_finite false 5404319552844596 (-53)) Distance)
  ∧ (bc ←ᵣ MDACost_add b c; MDACost_add a bc)
    = Ok (mkMDACost (S754_finite false 5404319552844595 (-53))
                    (S754_finite false 5404319552844595 (-53)) Distance)
  ∧ (ab ←ᵣ MDACost_add a b; MDACost_add ab c)
    ≠ (bc ←ᵣ MDACost_add b c; MDACost_add a bc).
Proof. vm_compute. by repeat split. Qed.

(** C7, amended: the addition of two costs with the same objective is
    component-wise (each component is the rounded double sum), commutative
    in both components and keeps the objective; both groupings of three such
    costs succeed and keep the objective; adding costs with differing
    objectives fails with an assertion error. *)
Theorem MDACost_add_spec (a b c : MDACost) :
  (optimization_objective a = optimization_objective b →
     MDACost_add a b
     = Ok (mkMDACost (fadd (distance_cost a) (distance_cost b))
                     (fadd (tests_travel_distance_cost a)
                           (tests_travel_distance_cost b))
                     (optimization_objective a))
     ∧ MDACost_add b a = MDACost_add a b
     ∧ fadd (distance_cost a) (distance_cost b)
       = fadd (distance_cost b) (distance_cost a)
     ∧ fadd (tests_travel_distance_cost a) (tests_travel_distance_cost b)
       = fadd (tests_travel_distance_cost b) (tests_travel_distance_cost a))
  ∧ (optimization_objective a = optimization_objective b →
     optimization_objective b = optimization_objective c →
     ∃ l r, (ab ←ᵣ MDACost_add a b; MDACost_add ab c) = Ok l
          ∧ (bc ←ᵣ MDACost_add b c; MDACost_add a bc) = Ok r
          ∧ optimization_objective l = optimization_objective a
          ∧ optimization_objective r = optimization_objective a)
  ∧ (optimization_objective a ≠ optimization_objective b →
     MDACost_add a b = Raise AssertionError
     ∧ MDACost_add b a = Raise AssertionError).
Proof.
  split; [|split].
  - intros Hobj. split; [by apply MDACost_add_same_objective|].
    split; [apply MDACost_add_comm|]. split; apply fadd_comm.
  - intros Hab Hbc.
    rewrite (MDACost_add_same_objective a b), (MDACost_add_same_objective b c)
      by done.
    simpl. rewrite !MDACost_add_same_objective by (simpl; congruence).
    eexists _, _. repeat split; simpl; congruence.
  - intros Hobj. split; apply MDACost_add_mismatch; congruence.
Qed.

Lemma MDACost_add_spec_witness :
  let a := mkMDACost f0_1 f0_2 TestsTravelDistance in
  let b := mkMDACost f0_3 inf TestsTravelDistance in
  let c := mkMDACost f0_3 f0_1 Distance in
  MDACost_add a b
  = Ok (mkMDACost (S754_finite false 7205759403792794 (-54)) inf
                  TestsTravelDistance)
  ∧ MDACost_add b a = MDACost_add a b
  ∧ MDACost_add a c = Raise AssertionError.
Proof.
  intros a b c.
  destruct (MDACost_add_spec a b b) as (Hsame & _ & _).
  destruct (MDACost_add_spec a c c) as (_ & _ & Hdiff).
  destruct (Hsame eq_refl) as (Hab & Hba & _).
  destruct (Hdiff ltac:(discriminate)) as (Hac & _).
  split; [|split].
  - rewrite Hab. reflexivity.
  - exact Hba.
  - exact Hac.
Defined.

(** ** Weighted A* *)

Section AStar_properties.
Context {State : Type} `{Countable State}.
Context {Cost : Type} `{ExtendedCost Cost}.
Context {Problem : Type}.

Implicit Types (self : AStar State Cost Problem) (node : SearchNode State Cost).

Lemma has_state_true (nodes : gmap State (SearchNode State Cost)) s node :
  nodes !! s = Some node → has_state nodes s = true.
Proof. intros Hs. unfold has_state. by rewrite Hs, bool_decide_true. Qed.

Lemma has_state_false (nodes : gmap State (SearchNode State Cost)) s :
  nodes !! s = None → has_state nodes s = false.
Proof.
  intros Hs. unfold has_state. rewrite Hs, bool_decide_false; [done|].
  by intros [? ?].
Qed.

Lemma push_extract_node (nodes : gmap State (SearchNode State Cost))
    existing_node node :
  state existing_node = state node →
  push_node (extract_node nodes existing_node) node
  = <[state node := node]> nodes.
Proof.
  intros Hs.
  unfold push_node, extract_node, SearchNodesPriorityQueue. rewrite Hs.
  apply insert_delete_eq.
Qed.

Lemma open_successor_node_in_open self problem node existing_node :
  open self !! state node = Some existing_node →
  state existing_node = state node →
  _open_successor_node self problem node
  = if flt (g_cost node) (g_cost existing_node)
    then with_open_close self (<[state node := node]> (open self)) (close self)
    else self.
Proof.
  intros Hopen Hstate. unfold _open_successor_node, get_node_by_state.
  unfold SearchNodesPriorityQueue in *.
  rewrite (has_state_true _ _ _ Hopen), Hopen.
  destruct (flt _ _); [|done].
  by rewrite push_extract_node.
Qed.

Lemma open_successor_node_in_close self problem node existing_node :
  open self !! state node = None →
  close self !! state node = Some existing_node →
  _open_successor_node self problem node
  = if flt (g_cost node) (g_cost existing_node)
    then with_open_close self (<[state node := node]> (open self))
                         (delete (state node) (close self))
    else self.
Proof.
  intros Hopen Hclose. unfold _open_successor_node, get_node_by_state.
  unfold SearchNodesPriorityQueue, SearchNodesCollection in *.
  by rewrite (has_state_false _ _ Hopen), (has_state_true _ _ _ Hclose), Hclose.
Qed.

Lemma open_successor_node_new self problem node :
  open self !! state node = None →
  close self !! state node = None →
  _open_successor_node self problem node
  = with_open_close self (<[state node := node]> (open self)) (close self).
Proof.
  intros Hopen Hclose. unfold _open_successor_node.
  unfold SearchNodesPriorityQueue, SearchNodesCollection in *.
  by rewrite (has_state_false _ _ Hopen), (has_state_false _ _ Hclose).
Qed.

(** C1: the reconciliation policy of [_open_successor_node] for a
    candidate [node] of state [s].  If Open holds a node for [s], the
    candidate replaces it when its g-cost is strictly smaller and is
    discarded otherwise.  Else, if Close holds a node for [s] of cost c1 and
    the candidate has cost c2: when c2 < c1 the entry for [s] leaves Close
    and the candidate enters Open, when c2 >= c1 (or the two costs do not
    compare) the candidate is discarded and nothing changes.  Else the
    candidate enters Open. *)
Theorem open_successor_node_policy self problem node :
  keyed_by_state (open self) →
  let s := state node in
  let self' := _open_successor_node self problem node in
  match open self !! s with
  | Some existing_node =>
      (flt (g_cost node) (g_cost existing_node) = true →
         self' = with_open_close self (<[s := node]> (open self)) (close self))
      ∧ (flt (g_cost node) (g_cost existing_node) = false → self' = self)
  | None =>
      match close self !! s with
      | Some existing_node =>
          (flt (g_cost node) (g_cost existing_node) = true →
             self' = with_open_close self (<[s := node]> (open self))
                                     (delete s (close self)))
          ∧ (fle (g_cost existing_node) (g_cost node) = true → self' = self)
          ∧ (flt (g_cost node) (g_cost existing_node) = false → self' = self)
      | None =>
          self' = with_open_close self (<[s := node]> (open self)) (close self)
      end
  end.
Proof.
  intros Hkeyed s self'. subst s self'.
  destruct (open self !! state node) as [existing_node|] eqn:Hopen.
  - rewrite (open_successor_node_in_open _ _ _ _ Hopen (Hkeyed _ _ Hopen)).
    split; by intros ->.
  - destruct (close self !! state node) as [existing_node|] eqn:Hclose.
    + rewrite (open_successor_node_in_close _ _ _ _ Hopen Hclose).
      split; [by intros ->|]. split; [|by intros ->].
      intros Hle. by rewrite (fle_not_flt _ _ Hle).
    + by apply open_successor_node_new.
Qed.

Lemma keyed_by_state_insert (nodes : gmap State (SearchNode State Cost)) node :
  keyed_by_state nodes → keyed_by_state (<[state node := node]> nodes).
Proof.
  intros Hkeyed s node'. destruct (decide (s = state node)) as [->|Hne].
  - rewrite lookup_insert_eq. by intros [= <-].
  - rewrite lookup_insert_ne by done. apply Hkeyed.
Qed.

Lemma keyed_by_state_delete (nodes : gmap State (SearchNode State Cost)) s :
  keyed_by_state nodes → keyed_by_state (delete s nodes).
Proof.
  intros Hkeyed s' node' Hlookup. apply Hkeyed.
  by apply lookup_delete_Some in Hlookup as [_ ?].
Qed.

(** The containers stay keyed by state while successor nodes are opened,
    starting from the empty containers of [_init_solver]. *)
Lemma open_successor_node_keyed self problem node :
  keyed_by_state (open self) → keyed_by_state (close self) →
  keyed_by_state (open (_open_successor_node self problem node))
  ∧ keyed_by_state (close (_open_successor_node self problem node)).
Proof.
  intros Hopen Hclose.
  destruct (open self !! state node) as [existing_node|] eqn:Hlookup.
  - rewrite (open_successor_node_in_open _ _ _ _ Hlookup (Hopen _ _ Hlookup)).
    destruct (flt _ _); [|done]. simpl.
    split; [by apply keyed_by_state_insert|done].
  - destruct (close self !! state node) as [existing_node|] eqn:Hlookup'.
    + rewrite (open_successor_node_in_close _ _ _ _ Hlookup Hlookup').
      destruct (flt _ _); [|done]. simpl.
      split; [by apply keyed_by_state_insert|by apply keyed_by_state_delete].
    + rewrite (open_successor_node_new _ _ _ Hlookup Hlookup'). simpl.
      split; [by apply keyed_by_state_insert|done].
Qed.

Lemma init_solver_keyed (solver : AStar State Cost Problem) problem :
  keyed_by_state (open (_init_solver solver problem))
  ∧ keyed_by_state (close (_init_solver solver problem)).
Proof.
  split; intros s node; simpl; unfold SearchNodesPriorityQueue,
    SearchNodesCollection; by rewrite lookup_empty.
Qed.

Lemma open_successor_node_heuristic self problem node :
  heuristic_function (_open_successor_node self problem node)
  = heuristic_function self
  ∧ heuristic_weight (_open_successor_node self problem node)
    = heuristic_weight self.
Proof.
  unfold _open_successor_node.
  repeat (case_match; simpl); done.
Qed.

(** C2: the expansion priority of a node is (1 - w) * g + w * h, where g is
    the node's accumulated objective cost, h the estimate of the heuristic
    built for the problem, and w the weight given at construction, 0.5 when
    none is given; the weight and the heuristic stay the same while
    successor nodes are opened. *)
Theorem calc_node_expanding_priority_spec
    (heuristic_type : Problem → HeuristicFunction State)
    (weight : option float) (bound : option Z)
    (criterion : option (SearchNode State Cost → bool))
    (problem : Problem) (opened : list (SearchNode State Cost)) node :
  let solver :=
    foldl (λ self successor, _open_successor_node self problem successor)
      (_init_solver (AStar_init heuristic_type weight bound criterion) problem)
      opened in
  let w := match weight with Some w => w | None => f0_5 end in
  let g := get_g_cost (cost node) in
  let h := estimate (heuristic_type problem) (state node) in
  _calc_node_expanding_priority solver node
  = Ok (fadd (fmul (fsub f1 w) g) (fmul w h)).
Proof.
  intros solver w g h.
  assert (heuristic_function solver = Some (heuristic_type problem)
          ∧ heuristic_weight solver = w) as [Hh Hw].
  { subst solver. induction opened as [|successor opened IH] using rev_ind.
    - simpl. by destruct weight.
    - rewrite foldl_app. simpl.
      destruct (open_successor_node_heuristic
        (foldl (λ self successor, _open_successor_node self problem successor)
           (_init_solver (AStar_init heuristic_type weight bound criterion)
              problem) opened) problem successor) as [-> ->].
      exact IH. }
  unfold _calc_node_expanding_priority. by rewrite Hh, Hw.
Qed.
End AStar_properties.

(** The g-cost of a node of the MDA problem is the component of its cost
    that the objective selects. *)
Lemma g_cost_MDACost {State : Type} (node : SearchNode State MDACost) :
  g_cost node
  = match optimization_objective (cost node) with
    | Distance => distance_cost (cost node)
    | TestsTravelDistance => tests_travel_distance_cost (cost node)
    end.
Proof. reflexivity. Qed.

(** ** Generators *)

Section gen_properties.
Context {A B : Type}.
Implicit Types (g : gen A) (body : B → gen A) (xs : list B).

Lemma elem_of_yields_gen_seq g1 g2 r :
  r ∈ yields (gen_seq g1 g2) →
  r ∈ yields g1 ∨ r ∈ yields g2.
Proof.
  unfold gen_seq. destruct (raised g1); [by left|].
  simpl. by rewrite elem_of_app.
Qed.

Lemma raised_gen_seq_None g1 g2 :
  raised (gen_seq g1 g2) = None ↔ raised g1 = None ∧ raised g2 = None.
Proof.
  unfold gen_seq. destruct (raised g1) eqn:Hg1; simpl.
  - rewrite Hg1. split; [done|]. by intros [? _].
  - split; [done|]. by intros [_ ?].
Qed.

Lemma yields_gen_seq_complete g1 g2 :
  raised g1 = None → yields (gen_seq g1 g2) = yields g1 ++ yields g2.
Proof. unfold gen_seq. by intros ->. Qed.

Lemma elem_of_yields_gen_for xs body r :
  r ∈ yields (gen_for xs body) →
  ∃ x, x ∈ xs ∧ r ∈ yields (body x).
Proof.
  induction xs as [|x xs IH]; simpl.
  - by intros ?%elem_of_nil.
  - intros [Hr|Hr]%elem_of_yields_gen_seq.
    + exists x. split; [left|done].
    + destruct (IH Hr) as (x' & Hx' & Hr'). exists x'. split; [by right|done].
Qed.

Lemma raised_gen_for_None xs body :
  raised (gen_for xs body) = None ↔ ∀ x, x ∈ xs → raised (body x) = None.
Proof.
  induction xs as [|x xs IH]; simpl.
  - split; [by intros _ x ?%elem_of_nil|done].
  - rewrite raised_gen_seq_None, IH. split.
    + intros [Hx Hxs] x' [->|Hx']%elem_of_cons; auto.
    + intros Hall. split; [apply Hall; left|].
      intros x' Hx'. apply Hall. by right.
Qed.

Lemma elem_of_yields_gen_for_complete xs body r :
  raised (gen_for xs body) = None →
  r ∈ yields (gen_for xs body) ↔ ∃ x, x ∈ xs ∧ r ∈ yields (body x).
Proof.
  intros Hnone. split; [apply elem_of_yields_gen_for|].
  intros (x & Hx & Hr). induction xs as [|x' xs IH]; simpl in *.
  - by apply elem_of_nil in Hx.
  - apply raised_gen_seq_None in Hnone as [Hx' Hxs].
    rewrite yields_gen_seq_complete by done. apply elem_of_app.
    apply elem_of_cons in Hx as [->|Hx]; [by left|right; auto].
Qed.
End gen_properties.

(** ** The MDA problem *)

Lemma sum_foldl (l : list Z) (acc : Z) : foldl Z.add acc l = acc + foldl Z.add 0 l.
Proof.
  revert acc. induction l as [|x l IH]; intros acc; simpl; [lia|].
  rewrite (IH (acc + x)), (IH (0 + x)). lia.
Qed.

Lemma sum_cons (x : Z) (l : list Z) : foldl Z.add 0 (x :: l) = x + foldl Z.add 0 l.
Proof. simpl. rewrite sum_foldl. lia. Qed.

Section MDA_properties.
Context {Junction : Type} `{Countable Junction}.
Variable index : Junction → Z.
Variable self : MDAProblem Junction.

#[local] Abbreviation Apartment := (ApartmentWithSymptomsReport.t Junction).
#[local] Abbreviation Lab := (Laboratory.t Junction).
#[local] Abbreviation roommates a :=
  (Z.of_N (ApartmentWithSymptomsReport.nr_roommates a)).
#[local] Abbreviation total := get_total_nr_tests_taken_and_stored_on_ambulance.
#[local] Abbreviation capacity :=
  (Z.of_N (Ambulance.taken_tests_storage_capacity (ambulance (problem_input self)))).

Implicit Types (s : MDAState Junction) (a : Apartment) (lab : Lab)
  (r : OperatorResult (MDAState Junction) MDACost).

Lemma total_nonneg s : 0 ≤ total s.
Proof.
  unfold get_total_nr_tests_taken_and_stored_on_ambulance, sum.
  induction (elements (tests_on_ambulance s)) as [|a l IH]; [done|].
  rewrite fmap_cons, sum_cons. lia.
Qed.

Lemma total_pos s : 0 < total s ↔ ∃ a, a ∈ tests_on_ambulance s ∧ 0 < roommates a.
Proof.
  unfold get_total_nr_tests_taken_and_stored_on_ambulance, sum.
  setoid_rewrite <- elem_of_elements.
  induction (elements (tests_on_ambulance s)) as [|a l IH].
  - simpl. split; [lia|]. by intros (a & ?%elem_of_nil & _).
  - rewrite fmap_cons, sum_cons. split.
    + intros Hpos. destruct (decide (0 < roommates a)) as [Ha|Ha].
      * exists a. split; [left|done].
      * destruct IH as [IH _]. destruct IH as (a' & Ha' & Hpos'); [lia|].
        exists a'. split; [by right|done].
    + intros (a' & [->|Ha']%elem_of_cons & Hpos).
      * assert (0 ≤ foldl Z.add 0 ((λ a, roommates a) <$> l)); [|lia].
        clear. induction l as [|a l IH]; [done|].
        rewrite fmap_cons, sum_cons. lia.
      * destruct IH as [_ IH]. specialize (IH (ex_intro _ a' (conj Ha' Hpos))).
        lia.
Qed.

Lemma total_empty s : tests_on_ambulance s = ∅ → total s = 0.
Proof.
  intros Hs. unfold get_total_nr_tests_taken_and_stored_on_ambulance.
  by rewrite Hs, elements_empty.
Qed.

Lemma elem_of_waiting s a :
  a ∈ get_reported_apartments_waiting_to_visit self s ↔
  a ∈ reported_apartments (problem_input self)
  ∧ (a ∉ tests_on_ambulance s) ∧ (a ∉ tests_transferred_to_lab s).
Proof.
  unfold get_reported_apartments_waiting_to_visit.
  rewrite elem_of_difference, elem_of_list_to_set, not_elem_of_union.
  split.
  - by intros (? & ? & ?).
  - by intros (? & ? & ?).
Qed.

Lemma get_operator_cost_no_route s s' :
  get_map_cost_between self (current_location s) (current_location s') = None →
  get_operator_cost self s s'
  = Ok (mkMDACost inf inf (problem_objective self)).
Proof. intros Hnone. unfold get_operator_cost. by rewrite Hnone. Qed.

Lemma get_operator_cost_route s s' d t :
  get_map_cost_between self (current_location s) (current_location s') = Some d →
  float_of_int (total s) = Ok t →
  get_operator_cost self s s'
  = Ok (mkMDACost d (fmul t d) (problem_objective self)).
Proof.
  intros Hd Ht. unfold get_operator_cost, int_mul_float. by rewrite Hd, Ht.
Qed.

Lemma get_operator_cost_overflow s s' d e :
  get_map_cost_between self (current_location s) (current_location s') = Some d →
  float_of_int (total s) = Raise e →
  get_operator_cost self s s' = Raise e.
Proof.
  intros Hd Ht. unfold get_operator_cost, int_mul_float. by rewrite Hd, Ht.
Qed.

Lemma get_operator_cost_Ok s s' t :
  float_of_int (total s) = Ok t →
  ∃ c, get_operator_cost self s s' = Ok c.
Proof.
  intros Ht.
  destruct (get_map_cost_between self (current_location s) (current_location s'))
    as [d|] eqn:Hd.
  - eexists. by apply get_operator_cost_route.
  - eexists. by apply get_operator_cost_no_route.
Qed.

Lemma elem_of_expand_apartment s a r :
  r ∈ yields (expand_apartment self s a) ↔
  0 ≤ nr_matoshim_on_ambulance s - roommates a
  ∧ total s + roommates a ≤ capacity
  ∧ ∃ c, get_operator_cost self s (state_after_apartment s a) = Ok c
       ∧ r = mkOperatorResult (state_after_apartment s a) c
               ("visit " +:+ ApartmentWithSymptomsReport.reporter_name a).
Proof.
  unfold expand_apartment. fold (state_after_apartment s a).
  destruct (Z.leb_spec 0 (nr_matoshim_on_ambulance s - roommates a));
    destruct (Z.leb_spec 0 (capacity - total s - roommates a)); simpl;
    try (split; [by intros ?%elem_of_nil|intros; lia]).
  destruct (get_operator_cost self s (state_after_apartment s a)) as [c|e];
    simpl.
  - rewrite list_elem_of_singleton. split.
    + intros ->. split; [done|]. split; [lia|]. by exists c.
    + by intros (_ & _ & c' & [= ->] & ->).
  - split; [by intros ?%elem_of_nil|]. by intros (_ & _ & c' & ? & _).
Qed.

Lemma raised_expand_apartment s a t :
  float_of_int (total s) = Ok t → raised (expand_apartment self s a) = None.
Proof.
  intros Ht. unfold expand_apartment. fold (state_after_apartment s a).
  destruct (_ && _); [|done].
  by destruct (get_operator_cost_Ok s (state_after_apartment s a) t Ht)
    as [c ->].
Qed.

Lemma expand_lab_state s lab :
  (let '(new_matoshim, new_visited_labs) :=
     if negb (bool_decide (lab ∈ visited_labs s)) then
       (nr_matoshim_on_ambulance s + Z.of_N (Laboratory.max_nr_matoshim lab),
        visited_labs s ∪ {[lab]})
     else (nr_matoshim_on_ambulance s, visited_labs s) in
   mkMDAState (AtLaboratory lab) ∅
     (tests_transferred_to_lab s ∪ tests_on_ambulance s)
     new_matoshim new_visited_labs)
  = state_after_lab s lab.
Proof.
  unfold state_after_lab.
  destruct (decide (lab ∈ visited_labs s)) as [Hin|Hin].
  - by rewrite bool_decide_true.
  - by rewrite bool_decide_false.
Qed.

Lemma elem_of_expand_lab s lab r :
  r ∈ yields (expand_lab self s lab) ↔
  (lab ∉ visited_labs s ∨ 0 < total s)
  ∧ ∃ c, get_operator_cost self s (state_after_lab s lab) = Ok c
       ∧ r = mkOperatorResult (state_after_lab s lab) c
               ("go to lab " +:+ Laboratory.name lab).
Proof.
  unfold expand_lab.
  pose proof (expand_lab_state s lab) as Hstate.
  destruct (negb (bool_decide (lab ∈ visited_labs s))) eqn:Hvisited;
    simpl in *.
  - rewrite Hstate.
    apply negb_true_iff, bool_decide_eq_false in Hvisited.
    destruct (get_operator_cost self s (state_after_lab s lab)) as [c|e];
      simpl.
    + rewrite list_elem_of_singleton. split.
      * intros ->. split; [by left|by exists c].
      * by intros (_ & c' & [= ->] & ->).
    + split; [by intros ?%elem_of_nil|]. by intros (_ & c' & ? & _).
  - apply negb_false_iff, bool_decide_eq_true in Hvisited.
    destruct (Z.ltb_spec 0 (total s)); simpl.
    + rewrite Hstate.
      destruct (get_operator_cost self s (state_after_lab s lab)) as [c|e];
        simpl.
      * rewrite list_elem_of_singleton. split.
        -- intros ->. split; [by right|by exists c].
        -- by intros (_ & c' & [= ->] & ->).
      * split; [by intros ?%elem_of_nil|]. by intros (_ & c' & ? & _).
    + split; [by intros ?%elem_of_nil|]. intros ([?|?] & _); [done|lia].
Qed.

Lemma raised_expand_lab s lab t :
  float_of_int (total s) = Ok t → raised (expand_lab self s lab) = None.
Proof.
  intros Ht. unfold expand_lab.
  pose proof (expand_lab_state s lab) as Hstate.
  destruct (_ || _); [|done].
  destruct (negb (bool_decide (lab ∈ visited_labs s))); simpl in *;
    rewrite Hstate;
    by destruct (get_operator_cost_Ok s (state_after_lab s lab) t Ht)
      as [c ->].
Qed.

Lemma raised_expand_state_with_costs s t :
  float_of_int (total s) = Ok t →
  raised (expand_state_with_costs self s) = None.
Proof.
  intros Ht. unfold expand_state_with_costs.
  apply raised_gen_seq_None. split; apply raised_gen_for_None; intros.
  - by eapply raised_expand_apartment.
  - by eapply raised_expand_lab.
Qed.

(** Whatever the expansion yields comes from one of its two loops. *)
Lemma elem_of_expand_state_with_costs s r :
  r ∈ yields (expand_state_with_costs self s) →
  (∃ a, a ∈ get_reported_apartments_waiting_to_visit self s
        ∧ r ∈ yields (expand_apartment self s a))
  ∨ (∃ lab, lab ∈ laboratories (problem_input self)
            ∧ r ∈ yields (expand_lab self s lab)).
Proof.
  unfold expand_state_with_costs.
  intros [Hr|Hr]%elem_of_yields_gen_seq;
    apply elem_of_yields_gen_for in Hr as (x & Hx & Hr).
  - left. exists x. by rewrite <- elem_of_elements.
  - right. by exists x.
Qed.

(** When the expansion runs to its end, it yields all of both loops. *)
Lemma elem_of_expand_state_with_costs_complete s r :
  raised (expand_state_with_costs self s) = None →
  r ∈ yields (expand_state_with_costs self s) ↔
  (∃ a, a ∈ get_reported_apartments_waiting_to_visit self s
        ∧ r ∈ yields (expand_apartment self s a))
  ∨ (∃ lab, lab ∈ laboratories (problem_input self)
            ∧ r ∈ yields (expand_lab self s lab)).
Proof.
  intros Hnone. split; [apply elem_of_expand_state_with_costs|].
  unfold expand_state_with_costs in *.
  apply raised_gen_seq_None in Hnone as [Hnone1 Hnone2].
  rewrite yields_gen_seq_complete by done. rewrite elem_of_app.
  rewrite !elem_of_yields_gen_for_complete by done.
  intros [(a & Ha & Hr)|(lab & Hlab & Hr)]; [left|right].
  - exists a. by rewrite elem_of_elements.
  - by exists lab.
Qed.
Lemma expand_apartment_Ok s a :
  raised (expand_apartment self s a) = None →
  0 ≤ nr_matoshim_on_ambulance s - roommates a →
  total s + roommates a ≤ capacity →
  ∃ c, get_operator_cost self s (state_after_apartment s a) = Ok c.
Proof.
  unfold expand_apartment. fold (state_after_apartment s a).
  intros Hnone Hmatoshim Hcapacity.
  rewrite (proj2 (Z.leb_le _ _) Hmatoshim) in Hnone.
  rewrite (proj2 (Z.leb_le 0 (capacity - total s - roommates a))) in Hnone
    by lia.
  simpl in Hnone.
  destruct (get_operator_cost self s (state_after_apartment s a)) as [c|e];
    [by exists c|done].
Qed.

Lemma expand_lab_Ok s lab :
  raised (expand_lab self s lab) = None →
  lab ∉ visited_labs s ∨ 0 < total s →
  ∃ c, get_operator_cost self s (state_after_lab s lab) = Ok c.
Proof.
  unfold expand_lab. pose proof (expand_lab_state s lab) as Hstate.
  intros Hnone Hcan.
  assert (negb (bool_decide (lab ∈ visited_labs s)) || (0 <? total s) = true)
    as Hguard.
  { destruct Hcan as [Hnew|Hpos].
    - by rewrite bool_decide_false.
    - rewrite (proj2 (Z.ltb_lt _ _) Hpos). apply orb_true_r. }
  rewrite Hguard in Hnone.
  destruct (negb (bool_decide (lab ∈ visited_labs s))); simpl in *;
    rewrite Hstate in Hnone;
    (destruct (get_operator_cost self s (state_after_lab s lab)) as [c|e];
      [by exists c|done]).
Qed.

(** C3: for a reported apartment [a], a successor positioned at [a] is
    yielded only when [a] is neither on the ambulance nor transferred, the
    matoshim left after the visit are not negative and the tests on the
    ambulance together with the roommates of [a] fit the storage capacity;
    such a successor has [a] added to the tests on the ambulance, the
    matoshim decreased by the roommates of [a], the other fields unchanged
    and the label "visit <reporter name>".  The expansion runs to its end
    whenever the number of tests on the ambulance converts to a float, and
    when it runs to its end the successor is yielded if the conditions
    hold. *)
Theorem expand_visits_reported_apartment s a :
  a ∈ reported_apartments (problem_input self) →
  let out := expand_state_with_costs self s in
  let can_visit :=
    (a ∉ tests_on_ambulance s) ∧ (a ∉ tests_transferred_to_lab s)
    ∧ 0 ≤ nr_matoshim_on_ambulance s - roommates a
    ∧ total s + roommates a ≤ capacity in
  (∀ r, r ∈ yields out →
     current_site (successor_state r) = AtApartment a →
     can_visit
     ∧ tests_on_ambulance (successor_state r) = tests_on_ambulance s ∪ {[a]}
     ∧ nr_matoshim_on_ambulance (successor_state r)
       = nr_matoshim_on_ambulance s - roommates a
     ∧ tests_transferred_to_lab (successor_state r) = tests_transferred_to_lab s
     ∧ visited_labs (successor_state r) = visited_labs s
     ∧ operator_name r
       = "visit " +:+ ApartmentWithSymptomsReport.reporter_name a
     ∧ get_operator_cost self s (successor_state r) = Ok (operator_cost r))
  ∧ (∀ t, float_of_int (total s) = Ok t → raised out = None)
  ∧ (raised out = None → can_visit →
     ∃ r, r ∈ yields out ∧ current_site (successor_state r) = AtApartment a).
Proof.
  intros Hreported out can_visit. subst out can_visit. split; [|split].
  - intros r Hr Hsite.
    apply elem_of_expand_state_with_costs
      in Hr as [(a' & Ha' & Hr)|(lab & Hlab & Hr)].
    + apply elem_of_expand_apartment
        in Hr as (Hmatoshim & Hcapacity & c & Hc & ->).
      simpl in Hsite. injection Hsite as ->.
      apply elem_of_waiting in Ha' as (_ & Hon & Htransferred).
      by repeat split.
    + apply elem_of_expand_lab in Hr as (_ & c & _ & ->). done.
  - apply raised_expand_state_with_costs.
  - intros Hnone (Hon & Htransferred & Hmatoshim & Hcapacity).
    assert (a ∈ get_reported_apartments_waiting_to_visit self s) as Hwaiting
      by by apply elem_of_waiting.
    assert (raised (expand_apartment self s a) = None) as Hnone_a.
    { unfold expand_state_with_costs in Hnone.
      apply raised_gen_seq_None in Hnone as [Hnone _].
      eapply raised_gen_for_None; [done|]. by apply elem_of_elements. }
    destruct (expand_apartment_Ok s a Hnone_a Hmatoshim Hcapacity) as [c Hc].
    exists (mkOperatorResult (state_after_apartment s a) c
              ("visit " +:+ ApartmentWithSymptomsReport.reporter_name a)).
    split; [|reflexivity].
    apply elem_of_expand_state_with_costs_complete; [done|].
    left. exists a. split; [done|].
    apply elem_of_expand_apartment. eauto.
Qed.

(** C4, amended: for a laboratory [lab] of the problem input, a successor
    positioned at [lab] is yielded only when [lab] has not been visited or the
    number of tests on the ambulance (the roommates of the apartments on it)
    is positive; on a first visit the matoshim increase by the supply of
    [lab] and [lab] joins the visited laboratories, on a repeated visit both
    stay; in both cases the tests on the ambulance are transferred and the
    ambulance is left empty, and the label is "go to lab <name>".  The
    expansion runs to its end whenever the number of tests on the ambulance
    converts to a float, and then the successor is yielded if the condition
    holds.  When every apartment on the ambulance has a roommate, the number
    of tests is positive exactly when the ambulance holds an apartment. *)
Theorem expand_visits_laboratory s lab :
  lab ∈ laboratories (problem_input self) →
  let out := expand_state_with_costs self s in
  let can_visit := lab ∉ visited_labs s ∨ 0 < total s in
  (∀ r, r ∈ yields out →
     current_site (successor_state r) = AtLaboratory lab →
     can_visit
     ∧ tests_on_ambulance (successor_state r) = ∅
     ∧ tests_transferred_to_lab (successor_state r)
       = tests_transferred_to_lab s ∪ tests_on_ambulance s
     ∧ (lab ∉ visited_labs s →
        nr_matoshim_on_ambulance (successor_state r)
        = nr_matoshim_on_ambulance s + Z.of_N (Laboratory.max_nr_matoshim lab)
        ∧ visited_labs (successor_state r) = visited_labs s ∪ {[lab]})
     ∧ (lab ∈ visited_labs s →
        nr_matoshim_on_ambulance (successor_state r)
        = nr_matoshim_on_ambulance s
        ∧ visited_labs (successor_state r) = visited_labs s)
     ∧ operator_name r = "go to lab " +:+ Laboratory.name lab
     ∧ get_operator_cost self s (successor_state r) = Ok (operator_cost r))
  ∧ (∀ t, float_of_int (total s) = Ok t → raised out = None)
  ∧ (raised out = None → can_visit →
     ∃ r, r ∈ yields out ∧ current_site (successor_state r) = AtLaboratory lab)
  ∧ ((∀ a, a ∈ tests_on_ambulance s → 0 < roommates a) →
     0 < total s ↔ tests_on_ambulance s ≠ ∅).
Proof.
  intros Hlab out can_visit. subst out can_visit. split; [|split; [|split]].
  - intros r Hr Hsite.
    apply elem_of_expand_state_with_costs
      in Hr as [(a & Ha & Hr)|(lab' & Hlab' & Hr)].
    + apply elem_of_expand_apartment in Hr as (_ & _ & c & _ & ->). done.
    + apply elem_of_expand_lab in Hr as (Hcan & c & Hc & ->).
      simpl in Hsite. injection Hsite as ->.
      split; [done|]. simpl. repeat split; try done.
      * by rewrite decide_False.
      * by rewrite decide_False.
      * by rewrite decide_True.
      * by rewrite decide_True.
  - apply raised_expand_state_with_costs.
  - intros Hnone Hcan.
    assert (raised (expand_lab self s lab) = None) as Hnone_lab.
    { unfold expand_state_with_costs in Hnone.
      apply raised_gen_seq_None in Hnone as [_ Hnone].
      by eapply raised_gen_for_None. }
    destruct (expand_lab_Ok s lab Hnone_lab Hcan) as [c Hc].
    exists (mkOperatorResult (state_after_lab s lab) c
              ("go to lab " +:+ Laboratory.name lab)).
    split; [|reflexivity].
    apply elem_of_expand_state_with_costs_complete; [done|].
    right. exists lab. split; [done|].
    apply elem_of_expand_lab. eauto.
  - intros Hroommates. rewrite total_pos. split.
    + intros (a & Ha & _) Hempty. rewrite Hempty in Ha.
      by apply not_elem_of_empty in Ha.
    + intros [a Ha]%set_choose_L. exists a. auto.
Qed.

(** C5: a state is a goal exactly when the ambulance is at a laboratory,
    the apartments transferred to a laboratory are all the reported
    apartments of the problem input, no tests are on the ambulance, the
    number of matoshim is not negative and every visited laboratory is one of
    the problem input. *)
Theorem is_goal_spec s :
  is_goal self s = true ↔
  (∃ lab, current_site s = AtLaboratory lab)
  ∧ (∀ a, a ∈ tests_transferred_to_lab s
          ↔ a ∈ reported_apartments (problem_input self))
  ∧ tests_on_ambulance s = ∅
  ∧ 0 ≤ nr_matoshim_on_ambulance s
  ∧ (∀ lab, lab ∈ visited_labs s → lab ∈ laboratories (problem_input self)).
Proof.
  unfold is_goal. rewrite !andb_true_iff, !bool_decide_eq_true, Z.leb_le.
  split.
  - intros ((((Hlab & Htransferred) & Hon) & Hmatoshim) & Hvisited).
    split; [|split; [|split; [|split]]]; try done.
    + destruct (current_site s); try done. by eexists.
    + intros a. rewrite <- Htransferred. by rewrite elem_of_list_to_set.
    + intros lab Hlab'. apply Hvisited in Hlab'.
      by rewrite elem_of_list_to_set in Hlab'.
  - intros ([lab Hlab] & Htransferred & Hon & Hmatoshim & Hvisited).
    repeat split; try done.
    + by rewrite Hlab.
    + apply set_eq. intros a. by rewrite elem_of_list_to_set, Htransferred.
    + intros lab' Hlab'. rewrite elem_of_list_to_set. auto.
Qed.

(** C6: when the distance finder reports no route, the cost of the operator
    has both components infinite, and nothing is raised; otherwise the
    distance component is the distance found and the tests-travel component is
    the number of tests on the ambulance in the previous state times that
    distance.  The only exception the function can raise is the overflow of
    the conversion of that number to a float, on a transition with a route. *)
Theorem get_operator_cost_spec prev_state succ_state :
  let route :=
    get_map_cost_between self (current_location prev_state)
                              (current_location succ_state) in
  (route = None →
     get_operator_cost self prev_state succ_state
     = Ok (mkMDACost inf inf (problem_objective self)))
  ∧ (∀ d t, route = Some d →
       float_of_int (total prev_state) = Ok t →
       get_operator_cost self prev_state succ_state
       = Ok (mkMDACost d (fmul t d) (problem_objective self)))
  ∧ (∀ e, get_operator_cost self prev_state succ_state = Raise e →
       e = OverflowError ∧ route ≠ None
       ∧ float_of_int (total prev_state) = Raise OverflowError).
Proof.
  intros route. subst route. split; [|split].
  - apply get_operator_cost_no_route.
  - intros d t. apply get_operator_cost_route.
  - intros e. unfold get_operator_cost, int_mul_float, float_of_int.
    destruct (get_map_cost_between _ _ _) as [d|]; [|done].
    destruct (float_of_Z (total prev_state)); simpl; try done.
    by intros [= <-].
Qed.

Lemma expand_step_cases s s' :
  succ_step self s s' →
  (∃ a, a ∈ get_reported_apartments_waiting_to_visit self s
        ∧ 0 ≤ nr_matoshim_on_ambulance s - roommates a
        ∧ s' = state_after_apartment s a)
  ∨ (∃ lab, lab ∈ laboratories (problem_input self)
            ∧ s' = state_after_lab s lab).
Proof.
  intros (r & Hr & <-).
  apply elem_of_expand_state_with_costs
    in Hr as [(a & Ha & Hr)|(lab & Hlab & Hr)].
  - apply elem_of_expand_apartment in Hr as (Hmatoshim & _ & c & _ & ->).
    left. by exists a.
  - apply elem_of_expand_lab in Hr as (_ & c & _ & ->).
    right. by exists lab.
Qed.

Lemma succ_step_invariant s s' :
  succ_step self s s' →
  tests_on_ambulance s ∩ tests_transferred_to_lab s = ∅ →
  0 ≤ nr_matoshim_on_ambulance s →
  tests_on_ambulance s' ∩ tests_transferred_to_lab s' = ∅
  ∧ 0 ≤ nr_matoshim_on_ambulance s'.
Proof.
  intros [(a & Ha & Hmatoshim & ->)|(lab & Hlab & ->)]%expand_step_cases
    Hdisjoint Hnonneg; simpl.
  - apply elem_of_waiting in Ha as (_ & _ & Htransferred).
    split; [|done]. apply elem_of_equiv_empty_L.
    intros a' [Hon Htransferred']%elem_of_intersection.
    apply elem_of_union in Hon as [Hon| ->%elem_of_singleton]; [|done].
    apply (not_elem_of_empty (C:=gset Apartment) a'). rewrite <- Hdisjoint.
    by apply elem_of_intersection.
  - split; [apply intersection_empty_l_L|]. case_decide; lia.
Qed.

(** C8: if in a state no apartment is both on the ambulance and
    transferred, and the number of matoshim is not negative, the same holds
    in every successor the expansion yields, and in every state reached by
    further successor generation: no state with a negative number of matoshim
    is built. *)
Theorem expand_preserves_invariant s :
  tests_on_ambulance s ∩ tests_transferred_to_lab s = ∅ →
  0 ≤ nr_matoshim_on_ambulance s →
  (∀ r, r ∈ yields (expand_state_with_costs self s) →
     tests_on_ambulance (successor_state r)
       ∩ tests_transferred_to_lab (successor_state r) = ∅
     ∧ 0 ≤ nr_matoshim_on_ambulance (successor_state r))
  ∧ (∀ s', reachable self s s' →
       tests_on_ambulance s' ∩ tests_transferred_to_lab s' = ∅
       ∧ 0 ≤ nr_matoshim_on_ambulance s').
Proof.
  intros Hdisjoint Hnonneg. split.
  - intros r Hr. apply (succ_step_invariant s); [|done..]. by exists r.
  - intros s' Hreach. revert Hdisjoint Hnonneg.
    induction Hreach as [s|s1 s2 s3 Hstep _ IH]; intros Hdisjoint Hnonneg;
      [done|].
    destruct (succ_step_invariant _ _ Hstep Hdisjoint Hnonneg). by apply IH.
Qed.

Lemma succ_step_transferred s s' :
  succ_step self s s' →
  tests_transferred_to_lab s ⊆ tests_transferred_to_lab s'.
Proof.
  intros [(a & _ & _ & ->)|(lab & _ & ->)]%expand_step_cases; simpl;
    set_solver.
Qed.

Lemma succ_step_all_transferred s s' :
  succ_step self s s' →
  tests_on_ambulance s = ∅ →
  list_to_set (reported_apartments (problem_input self))
  = tests_transferred_to_lab s →
  tests_on_ambulance s' = ∅
  ∧ list_to_set (reported_apartments (problem_input self))
    = tests_transferred_to_lab s'.
Proof.
  intros [(a & Ha & _ & ->)|(lab & _ & ->)]%expand_step_cases Hon Hall; simpl.
  - apply elem_of_waiting in Ha as (Ha & _ & Htransferred).
    rewrite <- Hall, elem_of_list_to_set in Htransferred. done.
  - split; [done|]. by rewrite Hon, union_empty_r_L.
Qed.

(** C9: the set of transferred apartments never shrinks: it is included in
    that of every successor the expansion yields, hence in that of every
    state reached by successor generation; and from a goal state on, the
    transferred apartments stay all the reported apartments of the problem
    input. *)
Theorem transferred_never_shrinks :
  (∀ s r, r ∈ yields (expand_state_with_costs self s) →
     tests_transferred_to_lab s ⊆ tests_transferred_to_lab (successor_state r))
  ∧ (∀ s s', reachable self s s' →
       tests_transferred_to_lab s ⊆ tests_transferred_to_lab s')
  ∧ (∀ s s', is_goal self s = true → reachable self s s' →
       list_to_set (reported_apartments (problem_input self))
       = tests_transferred_to_lab s'
       ∧ ∀ a, a ∈ reported_apartments (problem_input self) →
              a ∈ tests_transferred_to_lab s').
Proof.
  split; [|split].
  - intros s r Hr. apply succ_step_transferred. by exists r.
  - intros s s' Hreach. induction Hreach as [s|s1 s2 s3 Hstep _ IH]; [done|].
    etrans; [by apply succ_step_transferred|done].
  - intros s s' Hgoal Hreach.
    assert (tests_on_ambulance s = ∅
            ∧ list_to_set (reported_apartments (problem_input self))
              = tests_transferred_to_lab s) as [Hon Hall].
    { unfold is_goal in Hgoal.
      rewrite !andb_true_iff, !bool_decide_eq_true in Hgoal.
      by destruct Hgoal as ((((_ & ?) & ?) & _) & _). }
    assert (tests_on_ambulance s' = ∅
            ∧ list_to_set (reported_apartments (problem_input self))
              = tests_transferred_to_lab s') as [_ Hall'].
    { clear Hgoal. revert Hon Hall.
      induction Hreach as [s|s1 s2 s3 Hstep _ IH]; intros Hon Hall; [done|].
      destruct (succ_step_all_transferred _ _ Hstep Hon Hall). by apply IH. }
    split; [done|]. intros a Ha. rewrite <- Hall'. by apply elem_of_list_to_set.
Qed.

#[local] Instance index_le_total : Total (index_le index).
Proof. intros x y. unfold index_le. lia. Qed.

#[local] Instance index_le_trans : Transitive (index_le index).
Proof. intros x y z. unfold index_le. lia. Qed.

(** C10: the junctions of the remaining path form a list without
    duplicates, holding exactly the current location of the state and the
    locations of the reported apartments that are neither on the ambulance
    nor transferred, in ascending order of the junction index. *)
Theorem remaining_path_junctions_spec s :
  let path :=
    get_all_certain_junctions_in_remaining_ambulance_path index self s in
  NoDup path
  ∧ (∀ j, j ∈ path ↔
       j = current_location s
       ∨ ∃ a, a ∈ reported_apartments (problem_input self)
              ∧ (a ∉ tests_on_ambulance s)
              ∧ (a ∉ tests_transferred_to_lab s)
              ∧ ApartmentWithSymptomsReport.location a = j)
  ∧ StronglySorted (λ x y, index x ≤ index y) path.
Proof.
  intros path. subst path.
  unfold get_all_certain_junctions_in_remaining_ambulance_path, sorted_by_index.
  split; [|split].
  - rewrite merge_sort_Permutation. apply NoDup_elements.
  - intros j. rewrite merge_sort_Permutation, elem_of_elements.
    rewrite elem_of_union, elem_of_map, elem_of_singleton.
    setoid_rewrite elem_of_waiting. split.
    + intros [(a & -> & Ha & Hon & Htransferred)| ->]; [right|by left].
      by exists a.
    + intros [-> |(a & Ha & Hon & Htransferred & <-)]; [by right|left].
      by exists a.
  - apply (StronglySorted_merge_sort (index_le index)).
Qed.
End MDA_properties.

(** ** The small problem *)

Lemma open_successor_node_policy_witness :
  keyed_by_state (open small_search)
  ∧ _open_successor_node small_search () candidate_node
    = with_open_close small_search
        ({[7 := candidate_node]} : gmap Z (SearchNode Z MDACost))
        (∅ : gmap Z (SearchNode Z MDACost)).
Proof.
  assert (keyed_by_state (open small_search)) as Hkeyed.
  { intros s node. simpl. intros [<- <-]%lookup_singleton_Some. reflexivity. }
  split; [exact Hkeyed|].
  pose proof (open_successor_node_policy small_search () candidate_node Hkeyed)
    as Hpolicy.
  cbv zeta in Hpolicy.
  replace (open small_search !! state candidate_node)
    with (Some node_in_open) in Hpolicy by reflexivity.
  destruct Hpolicy as [Hcheaper _].
  rewrite Hcheaper by reflexivity.
  reflexivity.
Defined.

Lemma expand_visits_reported_apartment_witness :
  Noa ∈ reported_apartments (problem_input small_problem)
  ∧ ∃ r, r ∈ yields (expand_state_with_costs small_problem
                       (initial_state small_input))
         ∧ current_site (successor_state r) = AtApartment Noa.
Proof.
  assert (Noa ∈ reported_apartments (problem_input small_problem)) as Hreported.
  { simpl. set_solver. }
  split; [exact Hreported|].
  destruct (expand_visits_reported_apartment small_problem
              (initial_state small_input) Noa Hreported)
    as (_ & Hruns & Hyields).
  apply Hyields.
  - apply (Hruns f0). vm_compute. reflexivity.
  - simpl. split; [apply not_elem_of_empty|].
    split; [apply not_elem_of_empty|].
    split; vm_compute; discriminate.
Defined.

Lemma expand_visits_laboratory_witness :
  Haifa ∈ laboratories (problem_input small_problem)
  ∧ ∃ r, r ∈ yields (expand_state_with_costs small_problem
                       (initial_state small_input))
         ∧ current_site (successor_state r) = AtLaboratory Haifa.
Proof.
  assert (Haifa ∈ laboratories (problem_input small_problem)) as Hlab.
  { simpl. set_solver. }
  split; [exact Hlab|].
  destruct (expand_visits_laboratory small_problem
              (initial_state small_input) Haifa Hlab)
    as (_ & Hruns & Hyields & _).
  apply Hyields.
  - apply (Hruns f0). vm_compute. reflexivity.
  - left. simpl. apply not_elem_of_empty.
Defined.

(** C4, as stated, fails: with Dana's apartment (no roommate) on the
    ambulance and the laboratory already visited, the tests on the ambulance
    are not empty, yet their number is 0 and the expansion yields no visit of
    the laboratory: it runs to its end and yields "visit Noa" alone. *)
Lemma expand_skips_visited_laboratory :
  Haifa ∈ laboratories (problem_input small_problem)
  ∧ Haifa ∈ visited_labs after_Dana
  ∧ tests_on_ambulance after_Dana ≠ ∅
  ∧ raised (expand_state_with_costs small_problem after_Dana) = None
  ∧ operator_name <$> yields (expand_state_with_costs small_problem after_Dana)
    = ["visit Noa"]
  ∧ ¬ ∃ r, r ∈ yields (expand_state_with_costs small_problem after_Dana)
           ∧ current_site (successor_state r) = AtLaboratory Haifa.
Proof.
  split; [simpl; set_solver|]. split; [simpl; set_solver|].
  split; [simpl; set_solver|]. split; [by vm_compute|]. split; [by vm_compute|].
  intros (r & Hr & Hsite).
  apply elem_of_expand_state_with_costs
    in Hr as [(a & _ & Hr)|(lab & _ & Hr)].
  - apply elem_of_expand_apartment in Hr as (_ & _ & c & _ & ->). done.
  - apply elem_of_expand_lab in Hr as (Hcan & c & _ & ->).
    simpl in Hsite. injection Hsite as ->.
    destruct Hcan as [Hnew|Hpos].
    + apply Hnew. simpl. set_solver.
    + vm_compute in Hpos. discriminate.
Qed.

Lemma expand_preserves_invariant_witness :
  tests_on_ambulance after_Dana ∩ tests_transferred_to_lab after_Dana = ∅
  ∧ 0 ≤ nr_matoshim_on_ambulance after_Dana
  ∧ (∀ r, r ∈ yields (expand_state_with_costs small_problem after_Dana) →
       tests_on_ambulance (successor_state r)
         ∩ tests_transferred_to_lab (successor_state r) = ∅
       ∧ 0 ≤ nr_matoshim_on_ambulance (successor_state r))
  ∧ (∀ s', reachable small_problem after_Dana s' →
       tests_on_ambulance s' ∩ tests_transferred_to_lab s' = ∅
       ∧ 0 ≤ nr_matoshim_on_ambulance s').
Proof.
  assert (tests_on_ambulance after_Dana ∩ tests_transferred_to_lab after_Dana
          = ∅) as Hdisjoint.
  { simpl. set_solver. }
  assert (0 ≤ nr_matoshim_on_ambulance after_Dana) as Hnonneg.
  { simpl. lia. }
  split; [exact Hdisjoint|]. split; [exact Hnonneg|].
  exact (expand_preserves_invariant small_problem after_Dana Hdisjoint Hnonneg).
Defined.

(** With 2^1024 tests on the ambulance the cost of a transition with a
    route cannot be computed: the product of the number of tests and the
    distance raises, and so does the expansion of the state, before it
    yields anything. *)
Lemma get_operator_cost_overflow_example :
  get_operator_cost small_problem after_Goliath
    (state_after_lab after_Goliath Haifa) = Raise OverflowError
  ∧ expand_state_with_costs small_problem after_Goliath
    = ([], Some OverflowError).
Proof. by vm_compute. Qed.

(** * More properties *)

(** ** Sums *)

Lemma sum_Permutation (l1 l2 : list Z) : l1 ≡ₚ l2 → sum l1 = sum l2.
Proof.
  unfold sum. induction 1 as [|x l1 l2 _ IH|x y l|l1 l2 l3 _ IH1 _ IH2].
  - done.
  - by rewrite !sum_cons, IH.
  - rewrite !sum_cons. lia.
  - congruence.
Qed.

Lemma sum_app (l1 l2 : list Z) : sum (l1 ++ l2) = sum l1 + sum l2.
Proof.
  unfold sum. induction l1 as [|x l1 IH]; [done|].
  rewrite <- app_comm_cons, !sum_cons, IH. apply Z.add_assoc.
Qed.

Section sum_over_properties.
Context {A : Type} `{Countable A}.
Implicit Types (f : A → Z) (X Y : gset A).

Lemma sum_over_empty f : sum_over f ∅ = 0.
Proof. unfold sum_over. by rewrite elements_empty. Qed.

Lemma sum_over_disj_union f X Y :
  X ## Y → sum_over f (X ∪ Y) = sum_over f X + sum_over f Y.
Proof.
  intros Hdisjoint. unfold sum_over.
  rewrite (sum_Permutation _ (f <$> (elements X ++ elements Y))).
  - by rewrite fmap_app, sum_app.
  - apply fmap_Permutation. by apply elements_disj_union.
Qed.

Lemma sum_over_singleton f x : sum_over f {[x]} = f x.
Proof. unfold sum_over. by rewrite elements_singleton. Qed.

Lemma sum_over_union_singleton f X x :
  x ∉ X → sum_over f (X ∪ {[x]}) = sum_over f X + f x.
Proof.
  intros Hx. rewrite sum_over_disj_union, sum_over_singleton; [done|].
  intros y Hy ->%elem_of_singleton. done.
Qed.

Lemma sum_over_nonneg f X : (∀ x, 0 ≤ f x) → 0 ≤ sum_over f X.
Proof.
  intros Hf. unfold sum_over, sum.
  induction (elements X) as [|x l IH]; [done|].
  rewrite fmap_cons, sum_cons. specialize (Hf x). lia.
Qed.

Lemma sum_over_subseteq f X Y :
  (∀ x, 0 ≤ f x) → X ⊆ Y → sum_over f X ≤ sum_over f Y.
Proof.
  intros Hf Hsub.
  rewrite (union_difference_L X Y Hsub), sum_over_disj_union.
  - pose proof (sum_over_nonneg f (Y ∖ X) Hf). lia.
  - intros x Hx [_ Hx']%elem_of_difference. done.
Qed.

Lemma sum_over_elem_of f X x :
  (∀ x, 0 ≤ f x) → x ∈ X → f x ≤ sum_over f X.
Proof.
  intros Hf Hx. rewrite <- (sum_over_singleton f x).
  apply sum_over_subseteq; [done|]. by apply singleton_subseteq_l.
Qed.
End sum_over_properties.

(** ** The extended cost, continued *)

Lemma fadd_f0_l (x : float) : not_negative_zero x → fadd f0 x = x.
Proof. unfold not_negative_zero. by destruct x as [[]|[]| |]. Qed.

Lemma fadd_f0_r (x : float) : not_negative_zero x → fadd x f0 = x.
Proof. unfold not_negative_zero. by destruct x as [[]|[]| |]. Qed.

Lemma fadd_inf_r (x : float) : adds_to_inf x → fadd x inf = inf.
Proof. by destruct x as [[]|[]| |]. Qed.

Lemma flt_inf_l (x : float) : flt inf x = false.
Proof. by destruct x as [[]|[]| |[]]. Qed.

Lemma flt_nan_l (x : float) : flt S754_nan x = false.
Proof. by destruct x. Qed.

(** X1: the zero cost of a problem is neutral for the addition of costs, on
    both sides, for every cost with the objective of the problem whose
    components are not the negative zero. *)
Theorem zero_cost_neutral {Junction : Type} (self : MDAProblem Junction)
    (c : MDACost) :
  optimization_objective c = problem_objective self →
  not_negative_zero (distance_cost c) →
  not_negative_zero (tests_travel_distance_cost c) →
  MDACost_add (get_zero_cost self) c = Ok c
  ∧ MDACost_add c (get_zero_cost self) = Ok c.
Proof.
  intros Hobj Hdistance Htests. destruct c as [d t obj]. simpl in *. subst obj.
  unfold MDACost_add, get_zero_cost.
  cbn [optimization_objective distance_cost tests_travel_distance_cost].
  rewrite !decide_True by done.
  by rewrite !fadd_f0_l, !fadd_f0_r.
Qed.

Lemma zero_cost_neutral_witness :
  MDACost_add (get_zero_cost small_problem) (mkMDACost f0_1 f0_3 Distance)
  = Ok (mkMDACost f0_1 f0_3 Distance)
  ∧ MDACost_add (mkMDACost f0_1 f0_3 Distance) (get_zero_cost small_problem)
    = Ok (mkMDACost f0_1 f0_3 Distance).
Proof.
  apply (zero_cost_neutral small_problem (mkMDACost f0_1 f0_3 Distance));
    [reflexivity|discriminate|discriminate].
Defined.

(** X2: the g-cost is additive: when the sum of two costs is defined, its
    g-cost is the float sum of their g-costs, and it has their objective. *)
Theorem g_cost_additive (a b c : MDACost) :
  MDACost_add a b = Ok c →
  MDACost_get_g_cost c = fadd (MDACost_get_g_cost a) (MDACost_get_g_cost b)
  ∧ optimization_objective c = optimization_objective a
  ∧ optimization_objective c = optimization_objective b.
Proof.
  unfold MDACost_add. case_decide as Hobj; [|done]. intros [= <-].
  unfold MDACost_get_g_cost. simpl. rewrite Hobj.
  by destruct (optimization_objective a).
Qed.

Lemma g_cost_additive_witness :
  MDACost_get_g_cost (mkMDACost (S754_finite false 7205759403792794 (-54)) inf
                        TestsTravelDistance)
  = fadd (MDACost_get_g_cost (mkMDACost f0_1 f0_2 TestsTravelDistance))
         (MDACost_get_g_cost (mkMDACost f0_3 inf TestsTravelDistance))
  ∧ optimization_objective
      (mkMDACost (S754_finite false 7205759403792794 (-54)) inf
         TestsTravelDistance) = TestsTravelDistance
  ∧ optimization_objective
      (mkMDACost (S754_finite false 7205759403792794 (-54)) inf
         TestsTravelDistance) = TestsTravelDistance.
Proof.
  apply (g_cost_additive (mkMDACost f0_1 f0_2 TestsTravelDistance)
           (mkMDACost f0_3 inf TestsTravelDistance)).
  reflexivity.
Defined.

(** X3: the cost of a transition without a route absorbs: added to a cost
    with the same objective whose components are neither NaN nor the
    negative infinity, it gives the infinite cost again, whose g-cost is
    infinite. *)
Theorem unreachable_cost_absorbs (c : MDACost) :
  adds_to_inf (distance_cost c) →
  adds_to_inf (tests_travel_distance_cost c) →
  MDACost_add c (mkMDACost inf inf (optimization_objective c))
  = Ok (mkMDACost inf inf (optimization_objective c))
  ∧ MDACost_get_g_cost (mkMDACost inf inf (optimization_objective c)) = inf.
Proof.
  intros Hdistance Htests. split.
  - unfold MDACost_add.
    cbn [optimization_objective distance_cost tests_travel_distance_cost].
    rewrite decide_True by done. by rewrite !fadd_inf_r.
  - unfold MDACost_get_g_cost. simpl. by destruct (optimization_objective c).
Qed.

Lemma unreachable_cost_absorbs_witness :
  MDACost_add (mkMDACost f0_1 f0 Distance) (mkMDACost inf inf Distance)
  = Ok (mkMDACost inf inf Distance)
  ∧ MDACost_get_g_cost (mkMDACost inf inf Distance) = inf.
Proof.
  apply (unreachable_cost_absorbs (mkMDACost f0_1 f0 Distance)); exact I.
Defined.

(** ** The MDA state *)

Section MDA_state_properties.
Context {Junction : Type} `{Countable Junction}.
Variable hash :
  Site Junction * gset (ApartmentWithSymptomsReport.t Junction)
  * gset (ApartmentWithSymptomsReport.t Junction) * Z
  * gset (Laboratory.t Junction) → Z.


(** X5: the short description of the current location tells the kind of
    site and its name: two states with the same description are both at an
    apartment with the same reporter name, or both at a laboratory with the
    same name, or both at a junction. *)
Theorem short_description_inj (s1 s2 : MDAState Junction) :
  get_current_location_short_description s1
  = get_current_location_short_description s2 →
  match current_site s1, current_site s2 with
  | AtApartment a1, AtApartment a2 =>
      ApartmentWithSymptomsReport.reporter_name a1
      = ApartmentWithSymptomsReport.reporter_name a2
  | AtLaboratory lab1, AtLaboratory lab2 =>
      Laboratory.name lab1 = Laboratory.name lab2
  | AtJunction _, AtJunction _ => True
  | _, _ => False
  end.
Proof.
  unfold get_current_location_short_description.
  destruct (current_site s1), (current_site s2); simpl; intros Heq;
    try done; by injection Heq.
Qed.
End MDA_state_properties.

Lemma short_description_inj_witness :
  ApartmentWithSymptomsReport.reporter_name Dana
  = ApartmentWithSymptomsReport.reporter_name Dana.
Proof.
  exact (short_description_inj after_Dana
           (state_after_apartment (initial_state small_input) Dana) eq_refl).
Defined.

(** ** Successor generation from the initial state *)

Section MDA_invariants.
Context {Junction : Type} `{Countable Junction}.
Variable self : MDAProblem Junction.

#[local] Abbreviation Apartment := (ApartmentWithSymptomsReport.t Junction).
#[local] Abbreviation Lab := (Laboratory.t Junction).
#[local] Abbreviation roommates a :=
  (Z.of_N (ApartmentWithSymptomsReport.nr_roommates a)).
#[local] Abbreviation supply lab := (Z.of_N (Laboratory.max_nr_matoshim lab)).
#[local] Abbreviation total := get_total_nr_tests_taken_and_stored_on_ambulance.
#[local] Abbreviation capacity :=
  (Z.of_N (Ambulance.taken_tests_storage_capacity (ambulance (problem_input self)))).
#[local] Abbreviation start := (initial_state (problem_input self)).

Implicit Types (s : MDAState Junction) (a : Apartment) (lab : Lab)
  (r : OperatorResult (MDAState Junction) MDACost).

Lemma total_sum_over s :
  total s = sum_over (λ a, roommates a) (tests_on_ambulance s).
Proof. reflexivity. Qed.

(** The two ways a state follows another, with the guards of the loops. *)
Lemma succ_step_inv s s' :
  succ_step self s s' →
  (∃ a, a ∈ reported_apartments (problem_input self)
        ∧ (a ∉ tests_on_ambulance s) ∧ (a ∉ tests_transferred_to_lab s)
        ∧ 0 ≤ nr_matoshim_on_ambulance s - roommates a
        ∧ total s + roommates a ≤ capacity
        ∧ s' = state_after_apartment s a)
  ∨ (∃ lab, lab ∈ laboratories (problem_input self)
            ∧ (lab ∉ visited_labs s ∨ 0 < total s)
            ∧ s' = state_after_lab s lab).
Proof.
  intros (r & Hr & <-).
  apply elem_of_expand_state_with_costs
    in Hr as [(a & Ha & Hr)|(lab & Hlab & Hr)].
  - apply elem_of_expand_apartment in Hr as (Hmatoshim & Hcap & c & _ & ->).
    apply elem_of_waiting in Ha as (Ha & Hon & Htransferred).
    left. by exists a.
  - apply elem_of_expand_lab in Hr as (Hcan & c & _ & ->).
    right. by exists lab.
Qed.

Lemma total_state_after_apartment s a :
  a ∉ tests_on_ambulance s →
  total (state_after_apartment s a) = total s + roommates a.
Proof.
  intros Hon. rewrite !total_sum_over. simpl.
  by apply (sum_over_union_singleton (λ a, roommates a)).
Qed.

Lemma total_state_after_lab s lab : total (state_after_lab s lab) = 0.
Proof. by apply total_empty. Qed.

Lemma succ_step_capacity s s' : succ_step self s s' → total s' ≤ capacity.
Proof.
  intros [(a & _ & Hon & _ & _ & Hcap & ->)|(lab & _ & _ & ->)]%succ_step_inv.
  - by rewrite total_state_after_apartment.
  - rewrite total_state_after_lab. lia.
Qed.

(** X6: the ambulance never stores more tests than its capacity: this
    holds in every successor the expansion yields, whatever the expanded
    state, and in every state reached from the initial state. *)
Theorem capacity_never_exceeded :
  (∀ s r, r ∈ yields (expand_state_with_costs self s) →
     total (successor_state r) ≤ capacity)
  ∧ (∀ s, reachable self start s → total s ≤ capacity).
Proof.
  split.
  - intros s r Hr. apply (succ_step_capacity s). by exists r.
  - intros s [<-|(s' & _ & Hstep)]%rtc_inv_r.
    + rewrite total_empty by done. lia.
    + by apply (succ_step_capacity s').
Qed.

(** X7: a successor is never at a junction: it is at a reported apartment
    whose tests are on the ambulance and not transferred, or at a laboratory
    of the problem input that counts as visited, with nothing left on the
    ambulance. *)
Theorem successor_site_consistent s s' :
  succ_step self s s' →
  match current_site s' with
  | AtJunction _ => False
  | AtApartment a =>
      a ∈ reported_apartments (problem_input self)
      ∧ a ∈ tests_on_ambulance s'
      ∧ (a ∉ tests_transferred_to_lab s')
  | AtLaboratory lab =>
      lab ∈ laboratories (problem_input self)
      ∧ lab ∈ visited_labs s'
      ∧ tests_on_ambulance s' = ∅
  end.
Proof.
  intros [(a & Ha & _ & Htr & _ & _ & ->)|(lab & Hlab & _ & ->)]%succ_step_inv;
    simpl.
  - split; [done|]. split; [|done].
    apply elem_of_union. right. by apply elem_of_singleton.
  - split; [done|]. split; [|done].
    case_decide; [done|]. apply elem_of_union. right. by apply elem_of_singleton.
Qed.

Lemma well_formed_start : well_formed self start.
Proof.
  split; [|split; [|split]]; simpl.
  - intros a [Ha|Ha]; by apply elem_of_empty in Ha.
  - apply intersection_empty_l_L.
  - intros lab Hlab. by apply elem_of_empty in Hlab.
  - lia.
Qed.

Lemma well_formed_step s s' :
  succ_step self s s' → well_formed self s → well_formed self s'.
Proof.
  intros Hstep (Hreported & Hdisjoint & Hvisited & Hnonneg).
  destruct (succ_step_invariant self s s' Hstep Hdisjoint Hnonneg)
    as [Hdisjoint' Hnonneg'].
  split; [|split; [done|split; [|done]]].
  - apply succ_step_inv
      in Hstep as [(a & Ha & _ & _ & _ & _ & ->)|(lab & _ & _ & ->)]; simpl.
    + intros a' [[Ha'| ->%elem_of_singleton]%elem_of_union|Ha']; auto.
    + intros a' [Ha'|[Ha'|Ha']%elem_of_union]; auto.
      by apply elem_of_empty in Ha'.
  - apply succ_step_inv
      in Hstep as [(a & _ & _ & _ & _ & _ & ->)|(lab & Hlab & _ & ->)]; simpl.
    + done.
    + case_decide; [done|].
      intros lab' [Hlab'| ->%elem_of_singleton]%elem_of_union; auto.
Qed.

Lemma well_formed_reachable s : reachable self start s → well_formed self s.
Proof.
  intros Hreach. pose proof well_formed_start as Hstart. revert Hstart.
  induction Hreach as [s|s1 s2 s3 Hstep _ IH]; [done|].
  intros Hwf. apply IH. by apply (well_formed_step s1).
Qed.

(** X8: in every state reached from the initial state, the apartments on
    the ambulance and the transferred ones are reported apartments of the
    problem input, no apartment is both, the visited laboratories are
    laboratories of the problem input and the number of matoshim is not
    negative. *)
Theorem reachable_state_well_formed s :
  reachable self start s →
  (∀ a, a ∈ tests_on_ambulance s ∨ a ∈ tests_transferred_to_lab s →
        a ∈ reported_apartments (problem_input self))
  ∧ tests_on_ambulance s ∩ tests_transferred_to_lab s = ∅
  ∧ (∀ lab, lab ∈ visited_labs s → lab ∈ laboratories (problem_input self))
  ∧ 0 ≤ nr_matoshim_on_ambulance s.
Proof. apply well_formed_reachable. Qed.

Lemma is_goal_true s :
  is_goal self s = true ↔
  (∃ lab, current_site s = AtLaboratory lab)
  ∧ list_to_set (reported_apartments (problem_input self))
    = tests_transferred_to_lab s
  ∧ tests_on_ambulance s = ∅
  ∧ 0 ≤ nr_matoshim_on_ambulance s
  ∧ visited_labs s ⊆ list_to_set (laboratories (problem_input self)).
Proof.
  unfold is_goal. rewrite !andb_true_iff, !bool_decide_eq_true, Z.leb_le.
  split.
  - intros ((((Hlab & Htr) & Hon) & Hm) & Hvisited).
    split; [|done]. destruct (current_site s); try done. by eexists.
  - intros ([lab Hlab] & Htr & Hon & Hm & Hvisited).
    by rewrite Hlab.
Qed.

(** X9: in a state reached from the initial state, the goal test comes
    down to two conditions: the ambulance is at a laboratory and every
    reported apartment is transferred. *)
Theorem is_goal_reachable s :
  reachable self start s →
  is_goal self s = true ↔
  (∃ lab, current_site s = AtLaboratory lab)
  ∧ (∀ a, a ∈ reported_apartments (problem_input self) →
          a ∈ tests_transferred_to_lab s).
Proof.
  intros (Hreported & Hdisjoint & Hvisited & Hnonneg)%well_formed_reachable.
  rewrite is_goal_true. split.
  - intros (Hlab & Htr & _). split; [done|].
    intros a Ha. rewrite <- Htr. by apply elem_of_list_to_set.
  - intros (Hlab & Hall). split; [done|].
    assert (tests_on_ambulance s = ∅) as Hon.
    { apply elem_of_equiv_empty_L. intros a Ha.
      apply (not_elem_of_empty (C:=gset Apartment) a). rewrite <- Hdisjoint.
      apply elem_of_intersection. auto. }
    split; [|split; [done|split; [done|]]].
    + apply set_eq. intros a. rewrite elem_of_list_to_set. split; auto.
    + intros lab' Hlab'. apply elem_of_list_to_set. auto.
Qed.

Lemma conservation_step s s' :
  succ_step self s s' →
  nr_matoshim_on_ambulance s'
  + sum_over (λ a, roommates a)
      (tests_on_ambulance s' ∪ tests_transferred_to_lab s')
  - sum_over (λ lab, supply lab) (visited_labs s')
  = nr_matoshim_on_ambulance s
    + sum_over (λ a, roommates a)
        (tests_on_ambulance s ∪ tests_transferred_to_lab s)
    - sum_over (λ lab, supply lab) (visited_labs s).
Proof.
  intros [(a & _ & Hon & Htr & _ & _ & ->)|(lab & _ & _ & ->)]%succ_step_inv;
    simpl.
  - replace (tests_on_ambulance s ∪ {[a]} ∪ tests_transferred_to_lab s)
      with (tests_on_ambulance s ∪ tests_transferred_to_lab s ∪ {[a]}).
    + rewrite (sum_over_union_singleton (λ a, roommates a)); [lia|].
      by intros [?|?]%elem_of_union.
    + by rewrite <- !(assoc_L (∪)), (comm_L (∪) {[a]}).
  - rewrite (left_id_L ∅ (∪)), (comm_L (∪) (tests_transferred_to_lab s)).
    case_decide; [lia|].
    rewrite (sum_over_union_singleton (λ lab, supply lab)) by done. lia.
Qed.

Lemma conservation_reachable s s' :
  reachable self s s' →
  nr_matoshim_on_ambulance s'
  + sum_over (λ a, roommates a)
      (tests_on_ambulance s' ∪ tests_transferred_to_lab s')
  - sum_over (λ lab, supply lab) (visited_labs s')
  = nr_matoshim_on_ambulance s
    + sum_over (λ a, roommates a)
        (tests_on_ambulance s ∪ tests_transferred_to_lab s)
    - sum_over (λ lab, supply lab) (visited_labs s).
Proof.
  induction 1 as [s|s1 s2 s3 Hstep _ IH]; [done|].
  by rewrite IH, (conservation_step _ _ Hstep).
Qed.

(** X10: the matoshim are accounted for: in every state reached from the
    initial state, the matoshim on the ambulance are the initial ones, plus
    the supplies of the visited laboratories, minus the roommates of the
    apartments visited so far. *)
Theorem matoshim_accounted s :
  reachable self start s →
  nr_matoshim_on_ambulance s
  = Z.of_N (Ambulance.initial_nr_matoshim (ambulance (problem_input self)))
    + sum_over (λ lab, supply lab) (visited_labs s)
    - sum_over (λ a, roommates a)
        (tests_on_ambulance s ∪ tests_transferred_to_lab s).
Proof.
  intros Hreach%conservation_reachable. simpl in Hreach.
  rewrite (left_id_L ∅ (∪)), !sum_over_empty in Hreach. lia.
Qed.

Lemma size_list_to_set_le {A : Type} `{Countable A} (l : list A) :
  (size (list_to_set l : gset A) ≤ length l)%nat.
Proof.
  induction l as [|x l IH].
  - by rewrite list_to_set_nil, size_empty.
  - rewrite list_to_set_cons, size_union_alt, size_singleton. simpl.
    pose proof (subseteq_size (list_to_set l ∖ {[x]}) (list_to_set l : gset A))
      as Hle.
    specialize (Hle ltac:(apply subseteq_difference_l; done)). lia.
Qed.

Lemma waiting_state_after_apartment s a :
  get_reported_apartments_waiting_to_visit self (state_after_apartment s a)
  = get_reported_apartments_waiting_to_visit self s ∖ {[a]}.
Proof.
  unfold get_reported_apartments_waiting_to_visit. simpl.
  apply set_eq. intros x.
  rewrite !elem_of_difference, !elem_of_union, elem_of_singleton. tauto.
Qed.

Lemma waiting_state_after_lab s lab :
  get_reported_apartments_waiting_to_visit self (state_after_lab s lab)
  = get_reported_apartments_waiting_to_visit self s.
Proof.
  unfold get_reported_apartments_waiting_to_visit. simpl.
  apply set_eq. intros x.
  rewrite !elem_of_difference, !elem_of_union, elem_of_empty. tauto.
Qed.

Lemma size_difference_singleton {A : Type} `{Countable A} (X : gset A) x :
  x ∈ X → (S (size (X ∖ {[x]})) = size X)%nat.
Proof.
  intros Hx. rewrite size_difference by by apply singleton_subseteq_l.
  rewrite size_singleton.
  assert (size X ≠ 0)%nat; [|lia].
  apply size_non_empty_iff. intros Hempty. rewrite Hempty in Hx.
  by apply elem_of_empty in Hx.
Qed.

Lemma remaining_work_step s s' :
  succ_step self s s' →
  (remaining_work self s' < remaining_work self s)%nat.
Proof.
  intros [(a & Ha & Hon & Htr & _ & _ & ->)|(lab & Hlab & Hcan & ->)]%succ_step_inv;
    unfold remaining_work.
  - rewrite waiting_state_after_apartment. simpl.
    assert (a ∈ get_reported_apartments_waiting_to_visit self s) as Hwaiting
      by by apply elem_of_waiting.
    pose proof (size_difference_singleton _ _ Hwaiting).
    rewrite (size_union (tests_on_ambulance s) {[a]}), size_singleton; [lia|].
    intros x Hx ->%elem_of_singleton. done.
  - rewrite waiting_state_after_lab.
    cbn [state_after_lab tests_on_ambulance visited_labs].
    rewrite size_empty.
    case_decide as Hvisited.
    + destruct Hcan as [Hnew|Hpos]; [done|].
      apply total_pos in Hpos as (a & Ha & _).
      assert (size (tests_on_ambulance s) ≠ 0)%nat; [|lia].
      apply size_non_empty_iff. intros Hempty. rewrite Hempty in Ha.
      by apply elem_of_empty in Ha.
    + replace (list_to_set (laboratories (problem_input self))
               ∖ (visited_labs s ∪ {[lab]}))
        with ((list_to_set (laboratories (problem_input self))
               ∖ visited_labs s) ∖ {[lab]} : gset Lab).
      * assert (lab ∈ (list_to_set (laboratories (problem_input self))
                       ∖ visited_labs s : gset Lab)) as Hin.
        { apply elem_of_difference. split; [|done].
          by apply elem_of_list_to_set. }
        pose proof (size_difference_singleton _ _ Hin). lia.
      * apply set_eq. intros x.
        rewrite !elem_of_difference, elem_of_union, elem_of_singleton. tauto.
Qed.

Lemma remaining_work_nsteps n s s' :
  nsteps (succ_step self) n s s' →
  (n + remaining_work self s' ≤ remaining_work self s)%nat.
Proof.
  induction 1 as [s|n s1 s2 s3 Hstep _ IH]; [done|].
  pose proof (remaining_work_step _ _ Hstep). lia.
Qed.

(** X11: every step of successor generation takes away some of the work
    left; so a path of n steps from a state has n at most the work left in
    that state, no state follows itself after one or more steps, and a path
    from the initial state has at most twice as many steps as there are
    reported apartments plus as many as there are laboratories. *)
Theorem remaining_work_decreases :
  (∀ s s', succ_step self s s' →
     (remaining_work self s' < remaining_work self s)%nat)
  ∧ (∀ n s s', nsteps (succ_step self) n s s' →
       (n + remaining_work self s' ≤ remaining_work self s)%nat)
  ∧ (∀ s, ¬ tc (succ_step self) s s)
  ∧ (∀ n s, nsteps (succ_step self) n start s →
       (n ≤ 2 * length (reported_apartments (problem_input self))
            + length (laboratories (problem_input self)))%nat).
Proof.
  split; [apply remaining_work_step|]. split; [apply remaining_work_nsteps|].
  split.
  - intros s (n & Hn & Hsteps%remaining_work_nsteps)%tc_nsteps. lia.
  - intros n s Hsteps%remaining_work_nsteps.
    assert (remaining_work self start
            ≤ 2 * length (reported_apartments (problem_input self))
              + length (laboratories (problem_input self)))%nat; [|lia].
    clear Hsteps. unfold remaining_work.
    cbn [initial_state tests_on_ambulance visited_labs]. rewrite size_empty.
    pose proof (subseteq_size
      (get_reported_apartments_waiting_to_visit self start)
      (list_to_set (reported_apartments (problem_input self)))) as Hwaiting.
    specialize (Hwaiting ltac:(apply subseteq_difference_l; done)).
    pose proof (subseteq_size
      (list_to_set (laboratories (problem_input self)) ∖ ∅ : gset Lab)
      (list_to_set (laboratories (problem_input self)))) as Hlabs.
    specialize (Hlabs ltac:(apply subseteq_difference_l; done)).
    pose proof (size_list_to_set_le (reported_apartments (problem_input self))).
    pose proof (size_list_to_set_le (laboratories (problem_input self))).
    lia.
Qed.

Lemma goal_step s s' :
  is_goal self s = true → succ_step self s s' →
  is_goal self s' = true
  ∧ ∃ lab, lab ∈ laboratories (problem_input self)
           ∧ (lab ∉ visited_labs s) ∧ s' = state_after_lab s lab.
Proof.
  intros ([lab0 Hsite] & Htr & Hon & Hm & Hvisited)%is_goal_true
    [(a & Ha & _ & Hnot & _)|(lab & Hlab & Hcan & ->)]%succ_step_inv.
  - rewrite <- Htr, elem_of_list_to_set in Hnot. done.
  - assert (lab ∉ visited_labs s) as Hnew.
    { destruct Hcan as [?|Hpos]; [done|]. rewrite total_empty in Hpos by done.
      lia. }
    split; [|by exists lab].
    apply is_goal_true. simpl. rewrite !decide_False by done.
    split; [by eexists|]. split; [by rewrite Hon, (right_id_L ∅ (∪))|].
    split; [done|]. split; [lia|].
    intros lab' [Hlab'| ->%elem_of_singleton]%elem_of_union; [auto|].
    by apply elem_of_list_to_set.
Qed.

(** X12: a goal state has no successors but first visits of laboratories
    not visited yet, and every state reached from a goal state is a goal
    state. *)
Theorem goal_states_closed s :
  is_goal self s = true →
  (∀ s', succ_step self s s' →
     ∃ lab, lab ∈ laboratories (problem_input self)
            ∧ (lab ∉ visited_labs s) ∧ s' = state_after_lab s lab)
  ∧ (∀ s', reachable self s s' → is_goal self s' = true).
Proof.
  intros Hgoal. split.
  - intros s' Hstep. by destruct (goal_step s s' Hgoal Hstep).
  - intros s' Hreach. revert Hgoal.
    induction Hreach as [s|s1 s2 s3 Hstep _ IH]; [done|].
    intros Hgoal. apply IH. by destruct (goal_step s1 s2 Hgoal Hstep).
Qed.

Lemma is_goal_start : is_goal self start = false.
Proof. reflexivity. Qed.

Lemma is_goal_not_transferred s a :
  a ∈ reported_apartments (problem_input self) →
  a ∉ tests_transferred_to_lab s → is_goal self s = false.
Proof.
  intros Ha Hnot. destruct (is_goal self s) eqn:Hgoal; [|done].
  apply is_goal_true in Hgoal as (_ & Htr & _).
  rewrite <- Htr, elem_of_list_to_set in Hnot. done.
Qed.

(** X13: the initial state is never a goal, and without laboratories in
    the problem input no state reached from the initial state is a goal. *)
Theorem no_goal_without_laboratories :
  is_goal self start = false
  ∧ (laboratories (problem_input self) = [] →
     ∀ s, reachable self start s → is_goal self s = false).
Proof.
  split; [apply is_goal_start|].
  intros Hlabs s [<-|(s' & _ & Hstep)]%rtc_inv_r; [apply is_goal_start|].
  apply succ_step_inv
    in Hstep as [(a & _ & _ & _ & _ & _ & ->)|(lab & Hlab & _)].
  - reflexivity.
  - rewrite Hlabs in Hlab. by apply elem_of_nil in Hlab.
Qed.

Lemma never_visited_reachable a s :
  (∀ s', reachable self start s' →
         0 ≤ nr_matoshim_on_ambulance s' - roommates a →
         total s' + roommates a ≤ capacity → False) →
  reachable self start s →
  (a ∉ tests_on_ambulance s) ∧ (a ∉ tests_transferred_to_lab s).
Proof.
  intros Hguard Hreach. unfold reachable in Hreach. revert s Hreach.
  apply (rtc_ind_r (λ s, (a ∉ tests_on_ambulance s)
                         ∧ (a ∉ tests_transferred_to_lab s))).
  - split; simpl; by intros ?%elem_of_empty.
  - intros s s' Hreach Hstep [Hon Htr].
    apply succ_step_inv
      in Hstep as [(a' & _ & _ & _ & Hm & Hcap & ->)|(lab & _ & _ & ->)];
      simpl.
    + split; [|done].
      intros [?| ->%elem_of_singleton]%elem_of_union; [done|].
      by apply (Hguard s).
    + split; [by intros ?%elem_of_empty|].
      by intros [?|?]%elem_of_union.
Qed.

(** X14: a reported apartment with more roommates than the ambulance can
    store tests is never visited, so no state reached from the initial state
    is a goal. *)
Theorem no_goal_beyond_capacity a s :
  a ∈ reported_apartments (problem_input self) →
  capacity < roommates a →
  reachable self start s →
  (a ∉ tests_on_ambulance s) ∧ (a ∉ tests_transferred_to_lab s)
  ∧ is_goal self s = false.
Proof.
  intros Ha Hlarge Hreach.
  destruct (never_visited_reachable a s) as [Hon Htr]; [|done|].
  - intros s' _ _ Hcap. pose proof (total_nonneg s'). lia.
  - split; [done|]. split; [done|]. by apply (is_goal_not_transferred s a).
Qed.

(** X15: a reported apartment with more roommates than the initial
    matoshim and the supplies of all laboratories together is never visited,
    so no state reached from the initial state is a goal. *)
Theorem no_goal_beyond_matoshim a s :
  a ∈ reported_apartments (problem_input self) →
  Z.of_N (Ambulance.initial_nr_matoshim (ambulance (problem_input self)))
  + sum_over (λ lab, supply lab)
      (list_to_set (laboratories (problem_input self)))
  < roommates a →
  reachable self start s →
  (a ∉ tests_on_ambulance s) ∧ (a ∉ tests_transferred_to_lab s)
  ∧ is_goal self s = false.
Proof.
  intros Ha Hlarge Hreach.
  destruct (never_visited_reachable a s) as [Hon Htr]; [|done|].
  - intros s' Hreach' Hm _.
    pose proof (conservation_reachable _ _ Hreach') as Hcons.
    simpl in Hcons. rewrite (left_id_L ∅ (∪)), !sum_over_empty in Hcons.
    destruct (well_formed_reachable s' Hreach') as (_ & _ & Hvisited & _).
    pose proof (sum_over_nonneg (λ a, roommates a)
      (tests_on_ambulance s' ∪ tests_transferred_to_lab s')
      (λ a, N2Z.is_nonneg _)).
    pose proof (sum_over_subseteq (λ lab, supply lab) (visited_labs s')
      (list_to_set (laboratories (problem_input self)))
      (λ lab, N2Z.is_nonneg _)) as Hsub.
    specialize (Hsub ltac:(intros lab Hlab; apply elem_of_list_to_set; auto)).
    lia.
  - split; [done|]. split; [done|]. by apply (is_goal_not_transferred s a).
Qed.

(** X16: with no tests on the ambulance (as in the initial state and after
    every visit of a laboratory) the cost of a transition is always
    computed, so the expansion runs to its end; the tests-travel component
    of the cost is zero when the route has a finite positive length, and
    infinite when there is no route. *)
Theorem empty_ambulance_cost s s' :
  tests_on_ambulance s = ∅ →
  raised (expand_state_with_costs self s) = None
  ∧ ∃ c, get_operator_cost self s s' = Ok c
       ∧ match get_map_cost_between self (current_location s)
                 (current_location s') with
         | None => tests_travel_distance_cost c = inf ∧ distance_cost c = inf
         | Some d =>
             distance_cost c = d
             ∧ tests_travel_distance_cost c = fmul f0 d
             ∧ (∀ m e, d = S754_finite false m e →
                       tests_travel_distance_cost c = f0)
         end.
Proof.
  intros Hon.
  assert (float_of_int (total s) = Ok f0) as Hfloat.
  { by rewrite total_empty. }
  split; [by apply (raised_expand_state_with_costs self s f0)|].
  destruct (get_map_cost_between self (current_location s)
              (current_location s')) as [d|] eqn:Hroute.
  - eexists. split; [by apply get_operator_cost_route|].
    simpl. split; [done|]. split; [done|]. by intros m e ->.
  - eexists. split; [by apply get_operator_cost_no_route|]. done.
Qed.

Lemma yields_gen_seq_sublist {A : Type} (g1 g2 : gen A) :
  yields (gen_seq g1 g2) `sublist_of` yields g1 ++ yields g2.
Proof.
  unfold gen_seq. destruct (raised g1); [|done].
  by apply sublist_inserts_r.
Qed.

Lemma sites_gen_for_sublist {B : Type} (xs : list B) (site : B → Site Junction)
    (body : B → gen (OperatorResult (MDAState Junction) MDACost)) :
  (∀ x, (current_site ∘ successor_state) <$> yields (body x)
        `sublist_of` [site x]) →
  (current_site ∘ successor_state) <$> yields (gen_for xs body)
  `sublist_of` site <$> xs.
Proof.
  intros Hbody. induction xs as [|x xs IH]; [done|]. simpl.
  etrans; [apply fmap_sublist, yields_gen_seq_sublist|].
  rewrite fmap_app. by apply (sublist_app _ [site x] _ (site <$> xs)).
Qed.

Lemma sites_expand_apartment s a :
  (current_site ∘ successor_state) <$> yields (expand_apartment self s a)
  `sublist_of` [AtApartment a].
Proof.
  unfold expand_apartment. destruct (_ && _); [|apply sublist_nil_l].
  destruct (get_operator_cost _ _ _); [done|apply sublist_nil_l].
Qed.

Lemma sites_expand_lab s lab :
  (current_site ∘ successor_state) <$> yields (expand_lab self s lab)
  `sublist_of` [AtLaboratory lab].
Proof.
  unfold expand_lab. destruct (_ || _); [|apply sublist_nil_l].
  destruct (negb _); simpl;
    (destruct (get_operator_cost _ _ _); [done|apply sublist_nil_l]).
Qed.

Lemma sites_expand_state_with_costs s :
  (current_site ∘ successor_state) <$> yields (expand_state_with_costs self s)
  `sublist_of`
    (AtApartment <$> elements (get_reported_apartments_waiting_to_visit self s))
    ++ (AtLaboratory <$> laboratories (problem_input self)).
Proof.
  unfold expand_state_with_costs.
  etrans; [apply fmap_sublist, yields_gen_seq_sublist|].
  rewrite fmap_app. apply sublist_app.
  - apply sites_gen_for_sublist, sites_expand_apartment.
  - apply sites_gen_for_sublist, sites_expand_lab.
Qed.

#[local] Instance AtApartment_inj : Inj (=) (=) (@AtApartment Junction).
Proof. by intros a1 a2 [= ->]. Qed.

#[local] Instance AtLaboratory_inj : Inj (=) (=) (@AtLaboratory Junction).
Proof. by intros lab1 lab2 [= ->]. Qed.

(** X17: the expansion of a state yields at most one successor for each
    apartment waiting for a visit and each laboratory of the problem input;
    when the laboratories of the problem input are pairwise different, the
    successor states it yields are pairwise different. *)
Theorem successors_distinct s :
  NoDup (laboratories (problem_input self)) →
  NoDup (successor_state <$> yields (expand_state_with_costs self s))
  ∧ (length (yields (expand_state_with_costs self s))
     ≤ size (get_reported_apartments_waiting_to_visit self s)
       + length (laboratories (problem_input self)))%nat.
Proof.
  intros Hlabs. pose proof (sites_expand_state_with_costs s) as Hsub. split.
  - apply (NoDup_fmap_1 current_site). rewrite <- list_fmap_compose.
    eapply sublist_NoDup; [|done]. apply NoDup_app. split; [|split].
    + apply (NoDup_fmap_2 _), NoDup_elements.
    + intros site (a & -> & _)%list_elem_of_fmap (lab & ? & _)%list_elem_of_fmap.
      done.
    + by apply (NoDup_fmap_2 _).
  - apply sublist_length in Hsub.
    by rewrite length_app, !length_fmap in Hsub.
Qed.
End MDA_invariants.

(** ** The junctions of the remaining path *)

Section path_properties.
Context {Junction : Type} `{Countable Junction}.
Variable index : Junction → Z.
Variable self : MDAProblem Junction.

(** X18: the junctions of the remaining path are never none: there is at
    least the current location, and at most one junction more than there
    are apartments waiting for a visit; when no apartment waits, the path is
    the current location alone. *)
Theorem remaining_path_length (s : MDAState Junction) :
  let path :=
    get_all_certain_junctions_in_remaining_ambulance_path index self s in
  (1 ≤ length path)%nat
  ∧ (length path
     ≤ 1 + size (get_reported_apartments_waiting_to_visit self s))%nat
  ∧ (get_reported_apartments_waiting_to_visit self s = ∅ →
     path = [current_location s]).
Proof.
  intros path. subst path.
  unfold get_all_certain_junctions_in_remaining_ambulance_path, sorted_by_index.
  set (waiting := get_reported_apartments_waiting_to_visit self s).
  set (junctions := set_map ApartmentWithSymptomsReport.location waiting
                    ∪ {[current_location s]} : gset Junction).
  assert (length (merge_sort (index_le index) (elements junctions))
          = size junctions) as ->.
  { by rewrite merge_sort_Permutation. }
  split; [|split].
  - assert (size junctions ≠ 0)%nat; [|lia].
    apply size_non_empty_iff. intros Hempty.
    apply (not_elem_of_empty (C:=gset Junction) (current_location s)).
    rewrite <- Hempty. apply elem_of_union. right. by apply elem_of_singleton.
  - subst junctions. rewrite (comm_L (∪)), size_union_alt, size_singleton.
    pose proof (subseteq_size
      (set_map ApartmentWithSymptomsReport.location waiting
       ∖ {[current_location s]} : gset Junction)
      (set_map ApartmentWithSymptomsReport.location waiting)) as Hle.
    specialize (Hle ltac:(apply subseteq_difference_l; done)).
    assert (size (set_map ApartmentWithSymptomsReport.location waiting
                  : gset Junction) ≤ size waiting)%nat; [|lia].
    unfold set_map.
    etrans; [apply size_list_to_set_le|]. by rewrite length_fmap.
  - intros Hwaiting. subst junctions. rewrite Hwaiting, set_map_empty.
    rewrite (left_id_L ∅ (∪)), elements_singleton.
    apply Permutation_singleton_r, merge_sort_Permutation.
Qed.
End path_properties.

(** ** Weighted A*, continued *)

Section AStar_more.
Context {State : Type} `{Countable State}.
Context {Cost : Type} `{ExtendedCost Cost}.
Context {Problem : Type}.

Implicit Types (self : AStar State Cost Problem) (node : SearchNode State Cost).

(** The four outcomes of opening a successor node. *)
Lemma open_successor_node_cases self problem node :
  keyed_by_state (open self) →
  (_open_successor_node self problem node = self
   ∧ ∃ existing_node,
       (open self !! state node = Some existing_node
        ∨ (open self !! state node = None
           ∧ close self !! state node = Some existing_node))
       ∧ flt (g_cost node) (g_cost existing_node) = false)
  ∨ (∃ existing_node,
       open self !! state node = Some existing_node
       ∧ flt (g_cost node) (g_cost existing_node) = true
       ∧ _open_successor_node self problem node
         = with_open_close self (<[state node := node]> (open self))
                           (close self))
  ∨ (∃ existing_node,
       open self !! state node = None
       ∧ close self !! state node = Some existing_node
       ∧ flt (g_cost node) (g_cost existing_node) = true
       ∧ _open_successor_node self problem node
         = with_open_close self (<[state node := node]> (open self))
                           (delete (state node) (close self)))
  ∨ (open self !! state node = None ∧ close self !! state node = None
     ∧ _open_successor_node self problem node
       = with_open_close self (<[state node := node]> (open self))
                         (close self)).
Proof.
  intros Hkeyed.
  destruct (open self !! state node) as [existing_node|] eqn:Hopen.
  - rewrite (open_successor_node_in_open _ _ _ _ Hopen (Hkeyed _ _ Hopen)).
    destruct (flt _ _) eqn:Hlt.
    + right. left. by exists existing_node.
    + left. split; [done|]. exists existing_node. auto.
  - destruct (close self !! state node) as [existing_node|] eqn:Hclose.
    + rewrite (open_successor_node_in_close _ _ _ _ Hopen Hclose).
      destruct (flt _ _) eqn:Hlt.
      * right. right. left. by exists existing_node.
      * left. split; [done|]. exists existing_node. auto.
    + right. right. right.
      by rewrite (open_successor_node_new _ _ _ Hopen Hclose).
Qed.

(** X19: opening a successor node touches no other state: the nodes of
    Open and Close for states other than that of the candidate stay as they
    are; afterwards the state of the candidate is in Open or in Close, and
    the states in Open or Close are those of before and that one. *)
Theorem open_successor_node_frame self problem node :
  keyed_by_state (open self) →
  let self' := _open_successor_node self problem node in
  (∀ k, k ≠ state node →
     open self' !! k = open self !! k ∧ close self' !! k = close self !! k)
  ∧ (is_Some (open self' !! state node) ∨ is_Some (close self' !! state node))
  ∧ (∀ k, is_Some (open self' !! k) ∨ is_Some (close self' !! k) ↔
          k = state node
          ∨ is_Some (open self !! k) ∨ is_Some (close self !! k)).
Proof.
  intros Hkeyed self'.
  assert ((∀ k, k ≠ state node →
             open self' !! k = open self !! k
             ∧ close self' !! k = close self !! k)
          ∧ (is_Some (open self' !! state node)
             ∨ is_Some (close self' !! state node))) as [Hframe Hknown].
  { subst self'.
    destruct (open_successor_node_cases self problem node Hkeyed)
      as [(-> & e & [Hopen|[_ Hclose]] & _)
         |[(e & _ & _ & ->)|[(e & _ & _ & _ & ->)|(_ & _ & ->)]]];
      unfold SearchNodesPriorityQueue, SearchNodesCollection in *; simpl.
    - split; [done|]. left. by rewrite Hopen.
    - split; [done|]. right. by rewrite Hclose.
    - split; [|left; by rewrite lookup_insert_eq].
      intros k Hk. by rewrite lookup_insert_ne.
    - split; [|left; by rewrite lookup_insert_eq].
      intros k Hk. by rewrite lookup_insert_ne, lookup_delete_ne.
    - split; [|left; by rewrite lookup_insert_eq].
      intros k Hk. by rewrite lookup_insert_ne. }
  split; [done|]. split; [done|].
  intros k. destruct (decide (k = state node)) as [->|Hk].
  - split; auto.
  - destruct (Hframe k Hk) as [-> ->]. split; [auto|].
    by intros [?|?].
Qed.

(** X20: opening a successor node keeps the search consistent: if the
    nodes of Open and Close are filed under their own states and no state is
    both in Open and in Close, the same holds afterwards. *)
Theorem open_successor_node_consistent self problem node :
  keyed_by_state (open self) →
  keyed_by_state (close self) →
  (∀ k, open self !! k = None ∨ close self !! k = None) →
  let self' := _open_successor_node self problem node in
  keyed_by_state (open self')
  ∧ keyed_by_state (close self')
  ∧ (∀ k, open self' !! k = None ∨ close self' !! k = None).
Proof.
  intros Hopen Hclose Hdisjoint self'. subst self'.
  destruct (open_successor_node_keyed self problem node Hopen Hclose)
    as [Hopen' Hclose'].
  split; [done|]. split; [done|].
  destruct (open_successor_node_cases self problem node Hopen)
    as [(-> & _)
       |[(e & Hin & _ & ->)|[(e & _ & _ & _ & ->)|(_ & Hnew & ->)]]];
    [done|..];
    unfold SearchNodesPriorityQueue, SearchNodesCollection in *; simpl;
    intros k; destruct (decide (k = state node)) as [->|Hk].
  - right. destruct (Hdisjoint (state node)) as [Hnone|?]; [|done].
    by rewrite Hin in Hnone.
  - rewrite lookup_insert_ne by done. apply Hdisjoint.
  - right. apply lookup_delete_eq.
  - rewrite lookup_insert_ne, lookup_delete_ne by done. apply Hdisjoint.
  - by right.
  - rewrite lookup_insert_ne by done. apply Hdisjoint.
Qed.

(** X21: opening a successor node loses no node: a node of Open stays, or
    gives way to the candidate, which is then strictly cheaper and of the
    same state; a node of Close stays, or its state is reopened by the
    candidate, which is then strictly cheaper and in Open. *)
Theorem open_successor_node_monotone self problem node :
  keyed_by_state (open self) →
  let self' := _open_successor_node self problem node in
  (∀ k existing_node, open self !! k = Some existing_node →
     open self' !! k = Some existing_node
     ∨ (k = state node ∧ open self' !! k = Some node
        ∧ flt (g_cost node) (g_cost existing_node) = true))
  ∧ (∀ k existing_node, close self !! k = Some existing_node →
       close self' !! k = Some existing_node
       ∨ (k = state node ∧ close self' !! k = None
          ∧ open self' !! k = Some node
          ∧ flt (g_cost node) (g_cost existing_node) = true)).
Proof.
  intros Hkeyed self'. subst self'.
  destruct (open_successor_node_cases self problem node Hkeyed)
    as [(-> & _)
       |[(e & Hin & Hlt & ->)
        |[(e & Hout & Hin & Hlt & ->)|(Hout & Hnone & ->)]]];
    [by auto|..];
    unfold SearchNodesPriorityQueue, SearchNodesCollection in *; simpl;
    (split; intros k existing_node Hk;
      (destruct (decide (k = state node)) as [->|Hne];
        [|left; by rewrite ?lookup_insert_ne, ?lookup_delete_ne by done])).
  - right. rewrite lookup_insert_eq. simplify_eq. done.
  - by left.
  - congruence.
  - right. rewrite lookup_insert_eq, lookup_delete_eq. simplify_eq. done.
  - congruence.
  - congruence.
Qed.

(** X22: a candidate whose g-cost is infinite (a transition without a
    route) or a NaN never takes the place of a node: when its state is in
    Open or in Close, opening it changes nothing; when its state is in
    neither, it is put into Open all the same. *)
Theorem open_successor_node_unreachable self problem node :
  g_cost node = inf ∨ g_cost node = S754_nan →
  (is_Some (open self !! state node) ∨ is_Some (close self !! state node) →
     _open_successor_node self problem node = self)
  ∧ (open self !! state node = None → close self !! state node = None →
     open (_open_successor_node self problem node) !! state node = Some node).
Proof.
  intros Hcost.
  assert (∀ x, flt (g_cost node) x = false) as Hlt.
  { intros x. destruct Hcost as [-> | ->]; [apply flt_inf_l|apply flt_nan_l]. }
  split.
  - intros Hknown.
    destruct (open self !! state node) as [existing_node|] eqn:Hopen.
    + unfold _open_successor_node, get_node_by_state.
      unfold SearchNodesPriorityQueue, SearchNodesCollection in *.
      by rewrite (has_state_true _ _ _ Hopen), Hopen, Hlt.
    + destruct Hknown as [[? ?]|[existing_node Hclose]]; [done|].
      unfold _open_successor_node, get_node_by_state.
      unfold SearchNodesPriorityQueue, SearchNodesCollection in *.
      by rewrite (has_state_false _ _ Hopen), (has_state_true _ _ _ Hclose),
        Hclose, Hlt.
  - intros Hopen Hclose.
    rewrite (open_successor_node_new _ _ _ Hopen Hclose). simpl.
    unfold SearchNodesPriorityQueue. apply lookup_insert_eq.
Qed.
End AStar_more.

(** ** The small problem, continued *)

Lemma small_problem_step :
  succ_step small_problem (initial_state small_input) after_Noa.
Proof.
  exists (mkOperatorResult after_Noa (mkMDACost f1 f0 Distance) "visit Noa").
  split; [|reflexivity].
  apply elem_of_expand_state_with_costs_complete; [by vm_compute|].
  left. exists Noa. split.
  - apply elem_of_waiting. simpl. split; [set_solver|].
    split; apply not_elem_of_empty.
  - apply elem_of_expand_apartment.
    split; [vm_compute; discriminate|]. split; [vm_compute; discriminate|].
    exists (mkMDACost f1 f0 Distance). split; [by vm_compute|reflexivity].
Qed.

Lemma small_problem_reachable :
  reachable small_problem (initial_state (problem_input small_problem)) after_Noa.
Proof. apply rtc_once, small_problem_step. Qed.

Lemma successor_site_consistent_witness :
  Noa ∈ reported_apartments (problem_input small_problem)
  ∧ Noa ∈ tests_on_ambulance after_Noa
  ∧ Noa ∉ tests_transferred_to_lab after_Noa.
Proof.
  exact (successor_site_consistent small_problem _ _ small_problem_step).
Defined.

Lemma reachable_state_well_formed_witness :
  (∀ a, a ∈ tests_on_ambulance after_Noa
        ∨ a ∈ tests_transferred_to_lab after_Noa →
        a ∈ reported_apartments (problem_input small_problem))
  ∧ tests_on_ambulance after_Noa ∩ tests_transferred_to_lab after_Noa = ∅
  ∧ (∀ lab, lab ∈ visited_labs after_Noa →
            lab ∈ laboratories (problem_input small_problem))
  ∧ 0 ≤ nr_matoshim_on_ambulance after_Noa.
Proof.
  exact (reachable_state_well_formed small_problem _ small_problem_reachable).
Defined.

Lemma is_goal_reachable_witness :
  is_goal small_problem after_Noa = true ↔
  (∃ lab, current_site after_Noa = AtLaboratory lab)
  ∧ (∀ a, a ∈ reported_apartments (problem_input small_problem) →
          a ∈ tests_transferred_to_lab after_Noa).
Proof.
  exact (is_goal_reachable small_problem _ small_problem_reachable).
Defined.

Lemma matoshim_accounted_witness :
  nr_matoshim_on_ambulance after_Noa
  = Z.of_N (Ambulance.initial_nr_matoshim (ambulance (problem_input small_problem)))
    + sum_over (λ lab, Z.of_N (Laboratory.max_nr_matoshim lab))
        (visited_labs after_Noa)
    - sum_over (λ a, Z.of_N (ApartmentWithSymptomsReport.nr_roommates a))
        (tests_on_ambulance after_Noa ∪ tests_transferred_to_lab after_Noa).
Proof.
  exact (matoshim_accounted small_problem _ small_problem_reachable).
Defined.

Lemma all_done_is_goal : is_goal small_problem all_done = true.
Proof. by vm_compute. Qed.

Lemma goal_states_closed_witness :
  (∀ s', succ_step small_problem all_done s' →
     ∃ lab, lab ∈ laboratories (problem_input small_problem)
            ∧ (lab ∉ visited_labs all_done) ∧ s' = state_after_lab all_done lab)
  ∧ (∀ s', reachable small_problem all_done s' →
           is_goal small_problem s' = true).
Proof.
  exact (goal_states_closed small_problem all_done all_done_is_goal).
Defined.

Lemma no_goal_without_laboratories_witness :
  is_goal problem_without_labs
    (state_after_apartment (initial_state input_without_labs) Noa) = false.
Proof.
  destruct (no_goal_without_laboratories problem_without_labs) as [_ Hnone].
  apply (Hnone eq_refl).
  apply rtc_once.
  exists (mkOperatorResult
            (state_after_apartment (initial_state input_without_labs) Noa)
            (mkMDACost f1 f0 Distance) "visit Noa").
  split; [|reflexivity].
  apply elem_of_expand_state_with_costs_complete; [by vm_compute|].
  left. exists Noa. split.
  - apply elem_of_waiting. simpl. split; [set_solver|].
    split; apply not_elem_of_empty.
  - apply elem_of_expand_apartment.
    split; [vm_compute; discriminate|]. split; [vm_compute; discriminate|].
    exists (mkMDACost f1 f0 Distance). split; [by vm_compute|reflexivity].
Defined.

Lemma no_goal_beyond_capacity_witness :
  (Noa ∉ tests_on_ambulance (initial_state input_small_storage))
  ∧ (Noa ∉ tests_transferred_to_lab (initial_state input_small_storage))
  ∧ is_goal problem_small_storage (initial_state input_small_storage) = false.
Proof.
  apply (no_goal_beyond_capacity problem_small_storage Noa).
  - simpl. set_solver.
  - vm_compute. reflexivity.
  - apply rtc_refl.
Defined.

Lemma no_goal_beyond_matoshim_witness :
  (Noa ∉ tests_on_ambulance (initial_state input_few_matoshim))
  ∧ (Noa ∉ tests_transferred_to_lab (initial_state input_few_matoshim))
  ∧ is_goal problem_few_matoshim (initial_state input_few_matoshim) = false.
Proof.
  apply (no_goal_beyond_matoshim problem_few_matoshim Noa).
  - simpl. set_solver.
  - vm_compute. reflexivity.
  - apply rtc_refl.
Defined.

Lemma empty_ambulance_cost_witness :
  raised (expand_state_with_costs small_problem (initial_state small_input))
  = None
  ∧ ∃ c, get_operator_cost small_problem (initial_state small_input) after_Noa
         = Ok c
       ∧ distance_cost c = f1
       ∧ tests_travel_distance_cost c = fmul f0 f1
       ∧ (∀ m e, f1 = S754_finite false m e →
                 tests_travel_distance_cost c = f0).
Proof.
  exact (empty_ambulance_cost small_problem (initial_state small_input)
           after_Noa eq_refl).
Defined.

Lemma successors_distinct_witness :
  NoDup (successor_state
           <$> yields (expand_state_with_costs small_problem after_Dana))
  ∧ (length (yields (expand_state_with_costs small_problem after_Dana))
     ≤ size (get_reported_apartments_waiting_to_visit small_problem after_Dana)
       + length (laboratories (problem_input small_problem)))%nat.
Proof.
  apply (successors_distinct small_problem after_Dana).
  simpl. apply NoDup_singleton.
Defined.

Lemma small_search_keyed : keyed_by_state (open small_search).
Proof.
  intros s node. simpl. intros [<- <-]%lookup_singleton_Some. reflexivity.
Qed.

Lemma open_successor_node_frame_witness :
  let self' := _open_successor_node small_search () candidate_node in
  (∀ k, k ≠ state candidate_node →
     open self' !! k = open small_search !! k
     ∧ close self' !! k = close small_search !! k)
  ∧ (is_Some (open self' !! state candidate_node)
     ∨ is_Some (close self' !! state candidate_node))
  ∧ (∀ k, is_Some (open self' !! k) ∨ is_Some (close self' !! k) ↔
          k = state candidate_node
          ∨ is_Some (open small_search !! k)
          ∨ is_Some (close small_search !! k)).
Proof.
  exact (open_successor_node_frame small_search () candidate_node
           small_search_keyed).
Defined.

Lemma open_successor_node_consistent_witness :
  let self' := _open_successor_node small_search () candidate_node in
  keyed_by_state (open self')
  ∧ keyed_by_state (close self')
  ∧ (∀ k, open self' !! k = None ∨ close self' !! k = None).
Proof.
  apply (open_successor_node_consistent small_search () candidate_node
           small_search_keyed).
  - intros s node Hnode. cbn in Hnode. discriminate.
  - intros k. right. reflexivity.
Defined.

Lemma open_successor_node_monotone_witness :
  let self' := _open_successor_node small_search () candidate_node in
  (∀ k existing_node, open small_search !! k = Some existing_node →
     open self' !! k = Some existing_node
     ∨ (k = state candidate_node ∧ open self' !! k = Some candidate_node
        ∧ flt (g_cost candidate_node) (g_cost existing_node) = true))
  ∧ (∀ k existing_node, close small_search !! k = Some existing_node →
       close self' !! k = Some existing_node
       ∨ (k = state candidate_node ∧ close self' !! k = None
          ∧ open self' !! k = Some candidate_node
          ∧ flt (g_cost candidate_node) (g_cost existing_node) = true)).
Proof.
  exact (open_successor_node_monotone small_search () candidate_node
           small_search_keyed).
Defined.

Lemma open_successor_node_unreachable_witness :
  (is_Some (open small_search !! state unreachable_node)
   ∨ is_Some (close small_search !! state unreachable_node) →
     _open_successor_node small_search () unreachable_node = small_search)
  ∧ (open small_search !! state unreachable_node = None →
     close small_search !! state unreachable_node = None →
     open (_open_successor_node small_search () unreachable_node)
       !! state unreachable_node = Some unreachable_node).
Proof.
  apply (open_successor_node_unreachable small_search () unreachable_node).
  left. reflexivity.
Defined.
